(** * NewPortScanner.py: a multi-threaded TCP connect scanner

    The scanner of [src/NewPortScanner.py] is embedded as
    - a small state-and-exception monad for the body of [scan_port]
      (one probe: open a socket, [connect_ex], record, close);
    - an interleaving step relation for [scan_ports]: the main thread
      (spawn loop, [queue.join()], [thread.join()] loop, [sorted]) and
      the worker threads ([get_nowait], [scan_port], progress and
      [task_done]) take atomic steps in any order;
    - a second, small step relation for [main] (resolution, the scan,
      the three [except] clauses, the report).

    Everything the operating system decides (name resolution, the
    outcome of a connection attempt, the services database, whether the
    progress bar can be written to the standard output, whether the
    report file can be opened) is a field of an [environment]. *)

From stdpp Require Import base numbers list strings sorting relations pretty.

Local Open Scope Z_scope.

(** ** Exceptions and results *)

(** The [OSError] family: the errors raised by the [socket] module
    ([socket.error] is an alias of [OSError] itself) and by a write to
    a closed pipe ([BrokenPipeError]). *)
Inductive os_error :=
  os_generic | os_gaierror | os_herror | os_timeout | os_broken_pipe.

Inductive exn :=
  | OSError (k : os_error)
  | OverflowError
  | ValueError
  | KeyboardInterrupt.

(** [except socket.error] *)
Definition is_socket_error (e : exn) : bool :=
  match e with OSError _ => true | _ => false end.

(** [except socket.gaierror] *)
Definition is_gaierror (e : exn) : bool :=
  match e with OSError os_gaierror => true | _ => false end.

(** [except Exception]: [KeyboardInterrupt] derives from
    [BaseException] only. *)
Definition is_Exception (e : exn) : bool :=
  match e with KeyboardInterrupt => false | _ => true end.

Inductive result (A : Type) :=
  | Ret (a : A)
  | Raise (e : exn).
Global Arguments Ret {A} a.
Global Arguments Raise {A} e.

(** ** The environment *)

(** What the operating system answers to the calls of one probe. A run
    probes a port at most once, so one answer per port describes it. *)
Inductive probe_reply :=
  | SocketFails (k : os_error)     (* [socket.socket(...)] raises *)
  | ConnectRaises (k : os_error)   (* [connect_ex] raises *)
  | ConnectReturns (errno : Z).    (* [connect_ex] returns; 0 = connected *)

Record environment := {
  hosts : string → option string;          (* resolver: name to address *)
  net : string → Z → probe_reply;          (* the probe of (ip, port) *)
  services : Z → option string;            (* services database *)
  stdout_write : nat → option os_error;    (* the progress bar for count [n] *)
  writable : string → bool;                (* [open(path, 'w')] succeeds *)
  strerror : exn → string;                 (* [str(e)] *)
  elapsed : string                         (* the duration, as [:.2f] *)
}.

(** ** One probe: a state and exception monad *)

Inductive sock_event := SockOpen | SockConnect | SockClose.

(** The part of the store a probe touches: the shared [open_ports] list
    and the socket calls made so far. *)
Record pstate := PState {
  p_open_ports : list (Z * string);
  p_sock : list sock_event
}.

Definition M (A : Type) : Type := pstate → result A * pstate.

Definition ret {A} (a : A) : M A := λ s, (Ret a, s).
Definition raise {A} (e : exn) : M A := λ s, (Raise e, s).
Definition bind {A B} (m : M A) (k : A → M B) : M B := λ s,
  match m s with
  | (Ret a, s') => k a s'
  | (Raise e, s') => (Raise e, s')
  end.
Definition lift {A} (r : result A) : M A := λ s, (r, s).

(** [try: body except <handles>: handler]. Mutations made by the body
    before it raised stay. *)
Definition try_except {A} (body : M A) (handles : exn → bool) (handler : M A) : M A :=
  λ s,
  match body s with
  | (Ret a, s') => (Ret a, s')
  | (Raise e, s') => if handles e then handler s' else (Raise e, s')
  end.

Declare Scope probe_scope.
Delimit Scope probe_scope with probe.
Bind Scope probe_scope with M.
Notation "x <- m ;; k" := (bind m (λ x, k))
  (at level 20, m at level 99, k at level 200, only parsing) : probe_scope.
Notation "m ;; k" := (bind m (λ _, k))
  (at level 100, k at level 200, only parsing, right associativity) : probe_scope.

Definition log_sock (ev : sock_event) : M unit :=
  λ s, (Ret tt, PState (p_open_ports s) (p_sock s ++ [ev])).

(** [open_ports.append(x)], under the lock. *)
Definition append (x : Z * string) : M unit :=
  λ s, (Ret tt, PState (p_open_ports s ++ [x]) (p_sock s)).

Definition port_in_range (port : Z) : Prop := 0 ≤ port ≤ 65535.

Section Scanner.
Variable env : environment.

(** [socket.socket(AF_INET, SOCK_STREAM)] followed by [settimeout(1)],
    which does not raise for the constant 1. *)
Definition socket_socket (ip : string) (port : Z) : M unit :=
  match net env ip port with
  | SocketFails k => raise (OSError k)
  | _ => log_sock SockOpen
  end.

(** [sock.connect_ex((ip, port))]: a port outside 0..65535 is refused
    with [OverflowError] while the address is converted, before any
    system call; otherwise the C-level error code is returned, and
    other failures raise from the [OSError] family. *)
Definition connect_ex (ip : string) (port : Z) : M Z :=
  if decide (port_in_range port) then
    (log_sock SockConnect ;;
     match net env ip port with
     | ConnectReturns errno => ret errno
     | ConnectRaises k => raise (OSError k)
     | SocketFails k => raise (OSError k)
     end)%probe
  else raise OverflowError.

Definition sock_close : M unit := log_sock SockClose.

(** [socket.getservbyport(port)] *)
Definition getservbyport (port : Z) : result string :=
  if decide (port_in_range port) then
    match services env port with
    | Some name => Ret name
    | None => Raise (OSError os_generic)
    end
  else Raise OverflowError.

Definition get_service_name (port : Z) : result string :=
  match getservbyport port with
  | Ret name => Ret name
  | Raise e => if is_socket_error e then Ret "unknown" else Raise e
  end.

Definition scan_port (ip : string) (port : Z) : M unit :=
  try_except
    (socket_socket ip port ;;
     result <- connect_ex ip port ;;
     (if decide (result = 0) then
        name <- lift (get_service_name port) ;;
        append (port, name)
      else ret tt) ;;
     sock_close)%probe
    is_socket_error
    (ret tt).

(** The probe as the worker sees it: outcome, the list after it, and
    the socket calls it made. *)
Definition probe (ip : string) (port : Z) (open_ports : list (Z * string))
  : result unit * list (Z * string) * list sock_event :=
  let '(r, s) := scan_port ip port (PState open_ports []) in
  (r, p_open_ports s, p_sock s).

(** [print_progress(current, total)]: the bar is written to
    [sys.stdout] and flushed; the write raises from the [OSError] family
    when the standard output no longer takes it (a closed pipe). The
    counter is bumped under the lock, so a run draws the bar for a given
    count at most once and one answer per count describes it. The text
    of the bar is not modelled; its division by [total] is defined at
    every call ([print_progress_arguments]). *)
Definition print_progress (current : nat) : result unit :=
  match stdout_write env current with
  | None => Ret tt
  | Some k => Raise (OSError k)
  end.

End Scanner.

(** ** [sorted] on a list of (port, service) tuples *)

(** Python compares tuples lexicographically, and [str] by code point;
    [tuple_le x y] is [not (y < x)]. *)
Definition tuple_le (x y : Z * string) : Prop :=
  x.1 < y.1 ∨ (x.1 = y.1 ∧ String.le x.2 y.2).

Global Instance tuple_le_dec : RelDecision tuple_le.
Proof. intros x y. unfold tuple_le. apply _. Defined.

(** [sorted] is a stable merge sort that takes the left element unless
    the right one is smaller. *)
Definition sorted (l : list (Z * string)) : list (Z * string) :=
  merge_sort tuple_le l.

(** ** The threads of [scan_ports] *)

(** Where a worker is in its [while True] loop. The only statements of
    the loop that touch shared state are [get_nowait], the [append]
    inside [scan_port], the counting under the lock (with the progress
    bar drawn before the lock is released) and [task_done]; each is one
    step. *)
Inductive wstate :=
  | Ready                         (* about to call [queue.get_nowait()] *)
  | Holding (port : Z)            (* got [port], about to call [scan_port] *)
  | Scanned (port : Z)            (* about to count it, under the lock *)
  | Counted (port : Z)            (* about to call [queue.task_done()] *)
  | Exited                        (* [except Empty: break] *)
  | Died (port : Z) (e : exn).    (* an exception left [worker] *)

Definition terminated (w : wstate) : bool :=
  match w with Exited | Died _ _ => true | _ => false end.

(** Where the main thread is in [scan_ports], after the enqueue loop. *)
Inductive mstate :=
  | Spawning (n : nat)            (* [n] iterations of the spawn loop left *)
  | QueueJoin                     (* blocked in [queue.join()] *)
  | ThreadJoin (k : nat)          (* about to [join()] thread number [k] *)
  | Returned (r : list (Z * string)).

Inductive event :=
  | EvPut (port : Z)
  | EvStart (tid : nat)
  | EvGet (tid : nat) (port : Z)
  | EvProbe (tid : nat) (port : Z) (calls : list sock_event) (r : result unit)
  | EvTaskDone (tid : nat) (port : Z).

Record state := State {
  queue : list Z;                      (* the [Queue], oldest first *)
  unfinished_tasks : nat;              (* the counter behind [queue.join()] *)
  open_ports : list (Z * string);
  progress_counter : nat;              (* [progress_counter[0]] *)
  thread_list : list wstate;
  main_pc : mstate;
  trace : list event                   (* ghost: what happened, in order *)
}.

(** [range(start_port, end_port + 1)] *)
Definition port_range (start_port end_port : Z) : list Z :=
  seqZ start_port (end_port + 1 - start_port).

(** The state of [scan_ports] when the enqueue loop is over: every port
    of the range has been [put], and the spawn loop is about to run
    [range(actual_threads)]. *)
Definition scan_ports (start_port end_port num_threads : Z) : state :=
  let total_ports := end_port - start_port + 1 in
  let ports := port_range start_port end_port in
  let actual_threads := Z.min num_threads total_ports in
  {| queue := ports;
     unfinished_tasks := length ports;
     open_ports := [];
     progress_counter := 0;
     thread_list := [];
     main_pc := Spawning (Z.to_nat actual_threads);
     trace := EvPut <$> ports |}.

Section Threads.
Variable env : environment.
Variable ip : string.

Inductive step : relation state :=
  (* main: [thread.start(); thread_list.append(thread)] *)
  | step_spawn q u ops pc ths n tr :
      step (State q u ops pc ths (Spawning (S n)) tr)
           (State q u ops pc (ths ++ [Ready]) (Spawning n)
                  (tr ++ [EvStart (length ths)]))
  (* main: the spawn loop is over *)
  | step_spawned q u ops pc ths tr :
      step (State q u ops pc ths (Spawning 0) tr)
           (State q u ops pc ths QueueJoin tr)
  (* main: [queue.join()] returns once every task is done *)
  | step_queue_join q ops pc ths tr :
      step (State q 0 ops pc ths QueueJoin tr)
           (State q 0 ops pc ths (ThreadJoin 0) tr)
  (* main: [thread.join()] returns once that thread has ended *)
  | step_thread_join q u ops pc ths k w tr :
      ths !! k = Some w → terminated w = true →
      step (State q u ops pc ths (ThreadJoin k) tr)
           (State q u ops pc ths (ThreadJoin (S k)) tr)
  (* main: [return sorted(open_ports)] *)
  | step_return q u ops pc ths k tr :
      ths !! k = None →
      step (State q u ops pc ths (ThreadJoin k) tr)
           (State q u ops pc ths (Returned (sorted ops)) tr)
  (* worker [i]: [port = queue.get_nowait()] *)
  | step_get i port q u ops pc ths m tr :
      ths !! i = Some Ready →
      step (State (port :: q) u ops pc ths m tr)
           (State q u ops pc (<[i := Holding port]> ths) m
                  (tr ++ [EvGet i port]))
  (* worker [i]: [get_nowait] raises [Empty], the loop breaks *)
  | step_empty i u ops pc ths m tr :
      ths !! i = Some Ready →
      step (State [] u ops pc ths m tr)
           (State [] u ops pc (<[i := Exited]> ths) m tr)
  (* worker [i]: [scan_port(ip, port, open_ports, lock)] returns *)
  | step_scan i port q u ops ops' calls pc ths m tr :
      ths !! i = Some (Holding port) →
      probe env ip port ops = (Ret tt, ops', calls) →
      step (State q u ops pc ths m tr)
           (State q u ops' pc (<[i := Scanned port]> ths) m
                  (tr ++ [EvProbe i port calls (Ret tt)]))
  (* worker [i]: [scan_port] raises; nothing in [worker] catches it *)
  | step_scan_raise i port e q u ops ops' calls pc ths m tr :
      ths !! i = Some (Holding port) →
      probe env ip port ops = (Raise e, ops', calls) →
      step (State q u ops pc ths m tr)
           (State q u ops' pc (<[i := Died port e]> ths) m
                  (tr ++ [EvProbe i port calls (Raise e)]))
  (* worker [i]: [progress_counter[0] += 1] and the progress bar *)
  | step_count i port q u ops pc ths m tr :
      ths !! i = Some (Scanned port) →
      print_progress env (S pc) = Ret tt →
      step (State q u ops pc ths m tr)
           (State q u ops (S pc) (<[i := Counted port]> ths) m tr)
  (* worker [i]: the counter is bumped, then [print_progress] raises;
     nothing in [worker] catches it and [task_done] is not reached *)
  | step_count_raise i port e q u ops pc ths m tr :
      ths !! i = Some (Scanned port) →
      print_progress env (S pc) = Raise e →
      step (State q u ops pc ths m tr)
           (State q u ops (S pc) (<[i := Died port e]> ths) m tr)
  (* worker [i]: [queue.task_done()] *)
  | step_done i port q u ops pc ths m tr :
      ths !! i = Some (Counted port) →
      step (State q (S u) ops pc ths m tr)
           (State q u ops pc (<[i := Ready]> ths) m
                  (tr ++ [EvTaskDone i port]))
  (* worker [i]: [task_done()] called once too often *)
  | step_done_raise i port q ops pc ths m tr :
      ths !! i = Some (Counted port) →
      step (State q 0%nat ops pc ths m tr)
           (State q 0%nat ops pc (<[i := Died port ValueError]> ths) m tr).

(** [P] holds sooner or later whatever the scheduler does: the state
    satisfies [P], or it can move and every move leads to such a state. *)
Inductive inevitably (P : state → Prop) (st : state) : Prop :=
  | inevitably_now : P st → inevitably P st
  | inevitably_step :
      (∃ st', step st st') →
      (∀ st', step st st' → inevitably P st') →
      inevitably P st.

End Threads.

(** ** [main] *)

Definition nl : string := String (Ascii.ascii_of_nat 10) EmptyString.

(** [s * n] *)
Fixpoint repeat_string (s : string) (n : nat) : string :=
  match n with
  | O => EmptyString
  | S n => s +:+ repeat_string s n
  end.

(** [s.ljust(width)] *)
Definition ljust (width : nat) (s : string) : string :=
  s +:+ repeat_string " " (width - String.length s).

(** [str(n)] *)
Definition str (n : Z) : string := pretty n.

Record arguments := Args {
  target : string;
  start : Z;            (* [-s], default 1 *)
  end_ : Z;             (* [-e], default 1024 *)
  threads : Z;          (* [-t], default 100 *)
  output : option string
}.

(** How the call of [main] ended. *)
Inductive exit :=
  | Completed
  | Caught (e : exn)       (* one of the [except] clauses ran *)
  | Uncaught (e : exn).    (* no clause matched: a traceback *)

Inductive control :=
  | Running (ip : string) (st : state)    (* inside [scan_ports] *)
  | Halted (how : exit).

(** The output is what [main] itself prints; the progress bar that the
    workers redraw in place is not in it. *)
Record world := World {
  ctl : control;
  stdout : list string;                       (* one entry per [print] *)
  file : option (string * list string)        (* path, one entry per [write] *)
}.

Section Main.
Variable env : environment.
Variable args : arguments.

(** [socket.gethostbyname]: [hosts] answers [None] for a name the
    resolver does not know, which raises [socket.gaierror]. A target
    that is not a well-formed host name (an empty label, as in "a..b")
    is refused with [UnicodeError] before the resolver is asked; the
    model has well-formed targets only. *)
Definition gethostbyname (name : string) : result string :=
  match hosts env name with
  | Some ip => Ret ip
  | None => Raise (OSError os_gaierror)
  end.

Definition banner (ip : string) : list string :=
  [ nl +:+ "Starting Less Basic Port Scanner";
    "Target: " +:+ target args +:+ " (" +:+ ip +:+ ")";
    "Port range:" +:+ str (start args) +:+ "-" +:+ str (end_ args);
    "Threads: " +:+ str (threads args);
    "Timeout 1.0 seconds" +:+ nl ].

Definition result_row (x : Z * string) : string :=
  ljust 10 (str x.1) +:+ ljust 20 x.2.

Definition print_results (open_ports : list (Z * string)) : list string :=
  [ nl +:+ repeat_string "=" 70;
    "Scan Results for " +:+ target args;
    "Scan duration: " +:+ elapsed env +:+ " seconds";
    repeat_string "=" 70 +:+ nl ] ++
  (match open_ports with
   | [] => [ "No open ports found" ]
   | _ => [ "Found " +:+ str (Z.of_nat (length open_ports)) +:+ " open ports:" +:+ nl;
            ljust 10 "PORT" +:+ ljust 20 "SERVICE";
            repeat_string "-" 30 ] ++ (result_row <$> open_ports)
   end) ++
  [ "" ].

Definition report_line (x : Z * string) : string :=
  "Port " +:+ str x.1 +:+ ": " +:+ x.2 +:+ nl.

(** What is written to the [-o] file. *)
Definition report (ip : string) (open_ports : list (Z * string)) : list string :=
  [ "Scan Results for " +:+ target args +:+ " (" +:+ ip +:+ ")" +:+ nl;
    "Duration: " +:+ elapsed env +:+ " seconds" +:+ nl +:+ nl ] ++
  match open_ports with
  | [] => [ "No open ports found" +:+ nl ]
  | _ => [ "Open ports:" +:+ nl ] ++ (report_line <$> open_ports)
  end.

(** The [except] clauses of [main], in their order. *)
Definition main_except (e : exn) : option string :=
  if is_gaierror e then Some "Error: Could not resolve hostname"
  else match e with
       | KeyboardInterrupt => Some (nl +:+ "Scan interrupted by user")
       | _ => if is_Exception e
              then Some ("An error occurred: " +:+ strerror env e)
              else None
       end.

(** An exception raised inside the [try] of [main]. *)
Definition raised (e : exn) (out : list string)
    (f : option (string * list string)) : world :=
  match main_except e with
  | Some msg => World (Halted (Caught e)) (out ++ [msg]) f
  | None => World (Halted (Uncaught e)) out f
  end.

(** [main] up to the call of [scan_ports]. *)
Definition main : world :=
  match gethostbyname (target args) with
  | Raise e => raised e [] None
  | Ret ip =>
      World (Running ip (scan_ports (start args) (end_ args) (threads args)))
            (banner ip) None
  end.

(** [main] after [scan_ports] has returned [open_ports]; an empty
    [args.output] is false like [None]. *)
Definition finish (ip : string) (open_ports : list (Z * string))
    (out : list string) : world :=
  let out := out ++ print_results open_ports in
  match output args with
  | None => World (Halted Completed) out None
  | Some path =>
      if decide (path = "") then World (Halted Completed) out None
      else if writable env path
      then World (Halted Completed) out (Some (path, report ip open_ports))
      else raised (OSError os_generic) out None
  end.

(** The steps of [main] from the call of [scan_ports] to the end of the
    call of [main]. An interrupt is followed while the main thread is
    inside [scan_ports]. What the interpreter does once [main] is over,
    with daemon workers that may still be running, is not part of it. *)
Inductive main_step : relation world :=
  (* a thread of the scan moves *)
  | main_scanning ip st st' out f :
      step env ip st st' →
      main_step (World (Running ip st) out f) (World (Running ip st') out f)
  (* [scan_ports] has returned: results, then the report *)
  | main_returned ip st r out f :
      main_pc st = Returned r →
      main_step (World (Running ip st) out f) (finish ip r out)
  (* Ctrl-C while the main thread is inside [scan_ports] *)
  | main_interrupted ip st out f :
      (∀ r, main_pc st ≠ Returned r) →
      main_step (World (Running ip st) out f) (raised KeyboardInterrupt out f).

End Main.

(** * The vocabulary of the properties *)

Section Probes.
Variable env : environment.
Variable ip : string.

(** The name [get_service_name] comes back with when it returns. *)
Definition service_name (port : Z) : string :=
  default "unknown" (services env port).

(** A probe found the port reachable: [connect_ex] returned 0. *)
Definition reachable (port : Z) : Prop :=
  port_in_range port ∧ net env ip port = ConnectReturns 0.

Global Instance reachable_dec port : Decision (reachable port).
Proof.
  unfold reachable.
  assert (Decision (net env ip port = ConnectReturns 0)).
  { destruct (net env ip port) as [| |r]; try (right; discriminate).
    destruct (decide (r = 0)) as [->|]; [by left|right; congruence]. }
  apply _.
Defined.

(** What one call of [scan_port] appends to [open_ports]. *)
Definition recorded (port : Z) : list (Z * string) :=
  if decide (reachable port) then [(port, service_name port)] else [].

(** How [scan_port] ends: [OverflowError] leaves it when the port is
    outside 0..65535 and a socket could be opened; everything else is
    a return. *)
Definition probe_outcome (port : Z) : result unit :=
  if decide (port_in_range port) then Ret tt
  else match net env ip port with
       | SocketFails _ => Ret tt
       | _ => Raise OverflowError
       end.

End Probes.

(** ** What the trace and the thread list say *)

Definition puts (tr : list event) : list Z :=
  omap (λ ev, match ev with EvPut p => Some p | _ => None end) tr.
Definition starts (tr : list event) : list nat :=
  omap (λ ev, match ev with EvStart i => Some i | _ => None end) tr.
Definition gets (tr : list event) : list (nat * Z) :=
  omap (λ ev, match ev with EvGet i p => Some (i, p) | _ => None end) tr.
Definition probes (tr : list event) : list (nat * Z) :=
  omap (λ ev, match ev with EvProbe i p _ _ => Some (i, p) | _ => None end) tr.
Definition task_dones (tr : list event) : list (nat * Z) :=
  omap (λ ev, match ev with EvTaskDone i p => Some (i, p) | _ => None end) tr.

(** The port a worker has withdrawn and not yet probed. *)
Definition held (w : wstate) : list Z :=
  match w with Holding p => [p] | _ => [] end.
(** The port a worker has probed and not marked done. *)
Definition owed (w : wstate) : list Z :=
  match w with Scanned p | Counted p | Died p _ => [p] | _ => [] end.
(** The port a worker has counted and not marked done. *)
Definition counted (w : wstate) : list Z :=
  match w with Counted p => [p] | _ => [] end.
(** The port of a worker that died. *)
Definition lost (w : wstate) : list Z :=
  match w with Died p _ => [p] | _ => [] end.

Section Scans.
Variable env : environment.
Variable ip : string.
Variables start_port end_port num_threads : Z.

Definition actual_threads : nat :=
  Z.to_nat (Z.min num_threads (end_port - start_port + 1)).

(** What holds in every state of every run, whatever the inputs. *)
Record inv (st : state) : Prop := {
  inv_puts : puts (trace st) = port_range start_port end_port;
  inv_starts : starts (trace st) = seq 0 (length (thread_list st));
  inv_fifo :
    (snd <$> gets (trace st)) ++ queue st = port_range start_port end_port;
  inv_held :
    snd <$> gets (trace st) ≡ₚ
      (snd <$> probes (trace st)) ++ (thread_list st ≫= held);
  inv_done :
    snd <$> probes (trace st) ≡ₚ
      (snd <$> task_dones (trace st)) ++ (thread_list st ≫= owed);
  inv_unfinished :
    unfinished_tasks st =
      (length (queue st) + length (thread_list st ≫= held)
       + length (thread_list st ≫= owed))%nat;
  inv_open :
    open_ports st = (snd <$> probes (trace st)) ≫= recorded env ip;
  inv_progress :
    (length (task_dones (trace st)) + length (thread_list st ≫= counted)
       ≤ progress_counter st
       ≤ length (task_dones (trace st)) + length (thread_list st ≫= counted)
         + length (thread_list st ≫= lost))%nat;
  inv_main :
    match main_pc st with
    | Spawning n => (length (thread_list st) + n)%nat = actual_threads
    | QueueJoin => length (thread_list st) = actual_threads
    | ThreadJoin k =>
        length (thread_list st) = actual_threads ∧ unfinished_tasks st = 0%nat
    | Returned r =>
        length (thread_list st) = actual_threads ∧
        unfinished_tasks st = 0%nat ∧ r = sorted (open_ports st)
    end
}.

(** The reachable ports of the range with their service names, in the
    order of the range. *)
Definition expected_result : list (Z * string) :=
  port_range start_port end_port ≫= recorded env ip.

(** The scans the scanner is meant for: a range of ports that exist,
    not empty, and at least one thread. *)
Definition valid_scan : Prop :=
  0 ≤ start_port ∧ start_port ≤ end_port ∧ end_port ≤ 65535 ∧ 1 ≤ num_threads.

(** No worker has died, and a worker has left its loop only once the
    queue was empty. *)
Definition healthy (st : state) : Prop :=
  Forall (λ w, (∀ p e, w ≠ Died p e) ∧ (w = Exited → queue st = []))
         (thread_list st).

(** The standard output takes every progress bar. *)
Definition stdout_ok : Prop := ∀ n, stdout_write env n = None.

Definition live (st : state) : Prop :=
  inv st ∧ healthy st ∧ (1 ≤ actual_threads)%nat ∧ stdout_ok.

End Scans.

(** Every probe is made by the worker that withdrew the port. *)
Definition owners (st : state) : Prop :=
  probes (trace st) ⊆ gets (trace st) ∧
  ∀ i p, thread_list st !! i = Some (Holding p) → (i, p) ∈ gets (trace st).

(** The threads the main thread has joined have ended. *)
Definition joined (st : state) : Prop :=
  ∀ j w,
    match main_pc st with
    | ThreadJoin k => (j < k)%nat
    | Returned _ => True
    | _ => False
    end →
    thread_list st !! j = Some w → terminated w = true.

(** What is left to do, counted in steps. *)
Definition wweight (w : wstate) : nat :=
  match w with
  | Ready => 1 | Holding _ => 4 | Scanned _ => 3 | Counted _ => 2
  | _ => 0
  end.

Definition mweight (m : mstate) (nthreads : nat) : nat :=
  match m with
  | Spawning n => 3 + nthreads + 3 * n
  | QueueJoin => 2 + nthreads
  | ThreadJoin k => 1 + (nthreads - k)
  | Returned _ => 0
  end.

Definition measure (st : state) : nat :=
  mweight (main_pc st) (length (thread_list st))
  + sum_list (wweight <$> thread_list st)
  + 4 * length (queue st).

(** The state of the scan, if there is one. *)
Definition scanning (w : world) : option state :=
  match ctl w with Running _ st => Some st | Halted _ => None end.

(** An entry of [open_ports] shows in what the user gets. *)
Definition reported (w : world) (x : Z * string) : Prop :=
  result_row x ∈ stdout w ∨
  ∃ path lines, file w = Some (path, lines) ∧ report_line x ∈ lines.

(** What [main] has printed and written while the scan runs, and how it
    can have stopped. *)
Definition main_inv (env : environment) (args : arguments) (w : world) : Prop :=
  match ctl w with
  | Running ip st =>
      hosts env (target args) = Some ip ∧
      stdout w = banner args ip ∧ file w = None
  | Halted (Caught KeyboardInterrupt) =>
      ∃ ip, hosts env (target args) = Some ip ∧
            stdout w = banner args ip ++ [nl +:+ "Scan interrupted by user"] ∧
            file w = None
  | Halted (Uncaught _) => False
  | Halted _ => True
  end.

(** ** Workers that died *)

(** A dead worker died of the [OverflowError] its last probe raised or
    of the [OSError] a write of the progress bar raised, and the worker
    of a probe that raised is dead. *)
Definition casualties (env : environment) (ip : string) (st : state) : Prop :=
  (∀ i p e, thread_list st !! i = Some (Died p e) →
            (e = OverflowError ∧ probe_outcome env ip p = Raise OverflowError) ∨
            (∃ k n, e = OSError k ∧ stdout_write env n = Some k)) ∧
  (∀ i p, (i, p) ∈ probes (trace st) →
          probe_outcome env ip p = Raise OverflowError →
          thread_list st !! i = Some (Died p OverflowError)).

(** ** An example machine *)

(** A host whose ports 80 and 81 answer, 82 makes [connect_ex] raise,
    83 cannot get a socket, and everything else refuses the connection;
    only port 80 has a service name. *)
Definition loopback : environment := {|
  hosts := λ name, if decide (name = "localhost") then Some "127.0.0.1" else None;
  net := λ _ port,
    if decide (port = 80) then ConnectReturns 0
    else if decide (port = 81) then ConnectReturns 0
    else if decide (port = 82) then ConnectRaises os_gaierror
    else if decide (port = 83) then SocketFails os_generic
    else ConnectReturns 111;
  services := λ port, if decide (port = 80) then Some "http" else None;
  stdout_write := λ _, None;
  writable := λ _, true;
  strerror := λ _, "Permission denied";
  elapsed := "0.01"
|}.

(** A second host with the same open ports, which refuses everything
    else at once. *)
Definition loopback' : environment := {|
  hosts := hosts loopback;
  net := λ _ port,
    if decide (80 ≤ port ≤ 81) then ConnectReturns 0 else ConnectReturns 111;
  services := services loopback;
  stdout_write := stdout_write loopback;
  writable := writable loopback;
  strerror := strerror loopback;
  elapsed := "0.02"
|}.

(** The same host, from a directory that cannot be written to. *)
Definition readonly : environment := {|
  hosts := hosts loopback;
  net := net loopback;
  services := services loopback;
  stdout_write := stdout_write loopback;
  writable := λ _, false;
  strerror := strerror loopback;
  elapsed := elapsed loopback
|}.

(** The same host, with the output piped into a program that has gone
    away. *)
Definition closed_pipe : environment := {|
  hosts := hosts loopback;
  net := net loopback;
  services := services loopback;
  stdout_write := λ _, Some os_broken_pipe;
  writable := writable loopback;
  strerror := strerror loopback;
  elapsed := elapsed loopback
|}.

(** Two command lines. *)
Definition nowhere : arguments := Args "nowhere.invalid" 1 1024 100 None.
Definition web : arguments := Args "localhost" 80 80 1 (Some "scan.txt").

(** A run of [web] that is interrupted when port 80 has been found open. *)
Definition web_found : state :=
  State [] 1 [(80, "http")] 0 [Scanned 80] QueueJoin
        [EvPut 80; EvStart 0; EvGet 0 80;
         EvProbe 0 80 [SockOpen; SockConnect; SockClose] (Ret tt)].

(** * Lemmas *)

(** ** The order behind [sorted] *)

Global Instance tuple_le_total : Total tuple_le.
Proof.
  intros [p1 s1] [p2 s2]. unfold tuple_le. simpl.
  destruct (Z.lt_trichotomy p1 p2) as [?|[->|?]]; [by left; left| |by right; left].
  destruct (total String.le s1 s2); [left|right]; by right.
Qed.

Global Instance tuple_le_trans : Transitive tuple_le.
Proof.
  intros [p1 s1] [p2 s2] [p3 s3]. unfold tuple_le. simpl.
  intros [?|[-> H12]] [?|[-> H23]]; [left; lia|by left|by left|].
  right. split; [done|]. by trans s2.
Qed.

Global Instance tuple_le_antisymm : AntiSymm (=) tuple_le.
Proof.
  intros [p1 s1] [p2 s2]. unfold tuple_le. simpl.
  intros [?|[-> H12]] [?|[? H21]]; try lia.
  f_equal. by apply (anti_symm String.le).
Qed.

Lemma sorted_perm l : sorted l ≡ₚ l.
Proof. apply merge_sort_Permutation. Qed.

Lemma sorted_Sorted l : Sorted tuple_le (sorted l).
Proof. apply (Sorted_merge_sort tuple_le). Qed.

(** A list in ascending order is what [sorted] makes of any of its
    rearrangements. *)
Lemma sorted_unique l1 l2 : Sorted tuple_le l2 → l1 ≡ₚ l2 → sorted l1 = l2.
Proof.
  intros Hs Hp. apply (Sorted_unique tuple_le); [apply sorted_Sorted|done|].
  by rewrite sorted_perm.
Qed.

(** ** One probe *)

Ltac probe_unfold :=
  repeat unfold probe, scan_port, try_except, bind, socket_socket,
    connect_ex, sock_close, log_sock, append, lift, ret, raise.

Section ProbeFacts.
Variable env : environment.
Variable ip : string.

Lemma get_service_name_in_range port :
  port_in_range port → get_service_name env port = Ret (service_name env port).
Proof.
  intros Hp. unfold get_service_name, getservbyport, service_name.
  rewrite decide_True by done. by destruct (services env port).
Qed.

(** The list a probe leaves is the one it found plus [recorded]. *)
Lemma probe_spec port ops :
  ∃ calls, probe env ip port ops =
    (probe_outcome env ip port, ops ++ recorded env ip port, calls).
Proof.
  unfold probe_outcome, recorded.
  destruct (decide (reachable env ip port)) as [[Hp Hr]|Hn].
  - probe_unfold. rewrite Hr, !decide_True by done. simpl.
    rewrite get_service_name_in_range by done. eauto.
  - probe_unfold. unfold reachable in Hn.
    destruct (net env ip port) as [k|k|r]; simpl.
    + rewrite app_nil_r. case_decide; eauto.
    + case_decide; simpl; rewrite app_nil_r; eauto.
    + case_decide; simpl; [|rewrite app_nil_r; eauto].
      destruct (decide (r = 0)) as [->|Hr]; [tauto|].
      simpl. rewrite app_nil_r. eauto.
Qed.

End ProbeFacts.

(** ** The invariant of the threads *)

Lemma bind_insert {B} (g : wstate → list B) ths i w w' :
  ths !! i = Some w →
  (<[i := w']> ths ≫= g) ++ g w ≡ₚ (ths ≫= g) ++ g w'.
Proof.
  intros Hi.
  rewrite insert_take_drop by (by eapply lookup_lt_Some).
  rewrite <-(take_drop_middle ths i w) at 3 by done.
  rewrite !bind_app, !bind_cons. solve_Permutation.
Qed.

Lemma bind_insert_length {B} (g : wstate → list B) ths i w w' :
  ths !! i = Some w →
  (length (<[i := w']> ths ≫= g) + length (g w) =
   length (ths ≫= g) + length (g w'))%nat.
Proof.
  intros Hi. rewrite <-!length_app. by rewrite (bind_insert g ths i w w').
Qed.

Lemma lookup_bind_length {B} (g : wstate → list B) ths i w :
  ths !! i = Some w → (length (g w) ≤ length (ths ≫= g))%nat.
Proof.
  intros Hi. rewrite <-(take_drop_middle ths i w) by done.
  rewrite bind_app, bind_cons, !length_app. lia.
Qed.

Lemma bind_all_nil {B} (g : wstate → list B) ths :
  Forall (λ w, g w = []) ths → ths ≫= g = [].
Proof. induction 1 as [|w ths Hw _ IH]; [done|]. by rewrite bind_cons, Hw, IH. Qed.

Lemma owed_nil_counted ths : ths ≫= owed = [] → ths ≫= counted = [].
Proof.
  induction ths as [|w ths IH]; [done|]. rewrite !bind_cons.
  intros [Hw Hths]%app_eq_nil. rewrite IH by done. by destruct w.
Qed.

Lemma owed_nil_lost ths : ths ≫= owed = [] → ths ≫= lost = [].
Proof.
  induction ths as [|w ths IH]; [done|]. rewrite !bind_cons.
  intros [Hw Hths]%app_eq_nil. rewrite IH by done. by destruct w.
Qed.

Lemma puts_snoc tr ev :
  puts (tr ++ [ev]) = puts tr ++ match ev with EvPut p => [p] | _ => [] end.
Proof. unfold puts. rewrite omap_app. by destruct ev. Qed.
Lemma starts_snoc tr ev :
  starts (tr ++ [ev]) = starts tr ++ match ev with EvStart i => [i] | _ => [] end.
Proof. unfold starts. rewrite omap_app. by destruct ev. Qed.
Lemma gets_snoc tr ev :
  gets (tr ++ [ev]) = gets tr ++ match ev with EvGet i p => [(i, p)] | _ => [] end.
Proof. unfold gets. rewrite omap_app. by destruct ev. Qed.
Lemma probes_snoc tr ev :
  probes (tr ++ [ev]) =
  probes tr ++ match ev with EvProbe i p _ _ => [(i, p)] | _ => [] end.
Proof. unfold probes. rewrite omap_app. by destruct ev. Qed.
Lemma task_dones_snoc tr ev :
  task_dones (tr ++ [ev]) =
  task_dones tr ++ match ev with EvTaskDone i p => [(i, p)] | _ => [] end.
Proof. unfold task_dones. rewrite omap_app. by destruct ev. Qed.

Lemma trace_of_puts ports :
  puts (EvPut <$> ports) = ports ∧ starts (EvPut <$> ports) = [] ∧
  gets (EvPut <$> ports) = [] ∧ probes (EvPut <$> ports) = [] ∧
  task_dones (EvPut <$> ports) = [].
Proof.
  induction ports as [|p ports (IH1 & IH2 & IH3 & IH4 & IH5)]; [done|].
  unfold puts, starts, gets, probes, task_dones in *. csimpl.
  by rewrite IH1, IH2, IH3, IH4, IH5.
Qed.

Ltac trace_snoc :=
  rewrite ?puts_snoc, ?starts_snoc, ?gets_snoc, ?probes_snoc, ?task_dones_snoc;
  simpl; rewrite ?app_nil_r, ?fmap_app, ?bind_app, ?length_app; simpl;
  rewrite ?app_nil_r.

(** What replacing the state of worker [i] does to [held], [owed],
    [counted] and [lost]. *)
Ltac thread_update :=
  match goal with
  | H : ?ths !! ?i = Some ?w |- context [<[?i := ?w']> ?ths] =>
      pose proof (bind_insert held ths i w w' H) as Hheld';
      pose proof (bind_insert owed ths i w w' H) as Howed';
      pose proof (bind_insert_length held ths i w w' H) as Hheld_len;
      pose proof (bind_insert_length owed ths i w w' H) as Howed_len;
      pose proof (bind_insert_length counted ths i w w' H) as Hcounted_len;
      pose proof (bind_insert_length lost ths i w w' H) as Hlost_len;
      simpl in *; rewrite ?app_nil_r in *
  end.

Section Invariant.
Variable env : environment.
Variable ip : string.
Variables start_port end_port num_threads : Z.

Abbreviation Inv := (inv env ip start_port end_port num_threads).

Lemma inv_init : Inv (scan_ports start_port end_port num_threads).
Proof.
  destruct (trace_of_puts (port_range start_port end_port))
    as (Hp & Hs & Hg & Hpr & Hd).
  constructor; simpl; rewrite ?Hp, ?Hs, ?Hg, ?Hpr, ?Hd; try done.
  lia.
Qed.

Lemma inv_step st st' : Inv st → step env ip st st' → Inv st'.
Proof.
  intros [Hputs Hstarts Hfifo Hheld Hdone Hunf Hopen Hprog Hmain] Hstep.
  destruct Hstep; simpl in *.
  - (* spawn *)
    constructor; simpl; trace_snoc; rewrite ?app_nil_r; try done; try lia.
    rewrite Nat.add_1_r, seq_S. by f_equal.
  - constructor; simpl; try done. lia.
  - constructor; simpl; try done.
  - constructor; simpl; try done.
  - constructor; simpl; try done. destruct Hmain; auto.
  - (* get *)
    thread_update.
    constructor; simpl; trace_snoc; rewrite ?length_insert; try done; try lia.
    + by rewrite <-(assoc_L (++)).
    + rewrite Hheld', Hheld. by rewrite (assoc_L (++)).
    + by rewrite Howed'.
  - (* empty *)
    thread_update.
    constructor; simpl; trace_snoc; rewrite ?length_insert; try done; try lia.
    + by rewrite Hheld'.
    + by rewrite Howed'.
  - (* scan returns *)
    thread_update.
    destruct (probe_spec env ip port ops) as [calls' Hp].
    match goal with
    | Hpr : probe _ _ _ _ = _ |- _ => rewrite Hp in Hpr; injection Hpr as _ <- _
    end.
    constructor; simpl; trace_snoc; rewrite ?length_insert; try done; try lia.
    + rewrite Hheld, <-Hheld'. solve_Permutation.
    + rewrite Howed', Hdone. solve_Permutation.
    + by rewrite Hopen.
    + destruct m; try done; destruct Hmain as [? Hu]; lia.
  - (* scan raises *)
    thread_update.
    destruct (probe_spec env ip port ops) as [calls' Hp].
    match goal with
    | Hpr : probe _ _ _ _ = _ |- _ => rewrite Hp in Hpr; injection Hpr as _ <- _
    end.
    constructor; simpl; trace_snoc; rewrite ?length_insert; try done; try lia.
    + rewrite Hheld, <-Hheld'. solve_Permutation.
    + rewrite Howed', Hdone. solve_Permutation.
    + by rewrite Hopen.
    + destruct m; try done; destruct Hmain as [? Hu]; lia.
  - (* count *)
    thread_update. apply Permutation_app_inv_r in Howed'.
    constructor; simpl; trace_snoc; rewrite ?length_insert; try done; try lia.
    + by rewrite Hheld'.
    + by rewrite Howed'.
  - (* count, and the progress bar raises *)
    thread_update. apply Permutation_app_inv_r in Howed'.
    constructor; simpl; trace_snoc; rewrite ?length_insert; try done; try lia.
    + by rewrite Hheld'.
    + by rewrite Howed'.
  - (* task_done *)
    thread_update.
    constructor; simpl; trace_snoc; rewrite ?length_insert; try done; try lia.
    + by rewrite Hheld'.
    + rewrite Hdone, <-Howed'. solve_Permutation.
    + destruct m; try done; destruct Hmain as [? Hu]; lia.
  - (* task_done raises: there is no such state *)
    pose proof (lookup_bind_length owed _ _ _ H). simpl in *. lia.
Qed.

End Invariant.

(** ** What [scan_ports] returns *)

Lemma seqZ_ascending m n : StronglySorted Z.lt (seqZ m n).
Proof.
  remember (Z.to_nat n) as k eqn:Hk. revert m n Hk.
  induction k as [|k IH]; intros m n Hk.
  - rewrite seqZ_nil by lia. constructor.
  - rewrite seqZ_cons by lia. constructor; [apply IH; lia|].
    apply Forall_seqZ. lia.
Qed.

Section Result.
Variable env : environment.
Variable ip : string.
Variables start_port end_port num_threads : Z.

Abbreviation range := (port_range start_port end_port).
Abbreviation init := (scan_ports start_port end_port num_threads).
Abbreviation Inv := (inv env ip start_port end_port num_threads).

Abbreviation Expected := (expected_result env ip start_port end_port).

Lemma elem_of_recorded x port :
  x ∈ recorded env ip port ↔
  x = (port, service_name env port) ∧ reachable env ip port.
Proof.
  unfold recorded. case_decide.
  - rewrite list_elem_of_singleton. tauto.
  - rewrite elem_of_nil. tauto.
Qed.

Lemma recorded_ascending l :
  StronglySorted Z.lt l → StronglySorted tuple_le (l ≫= recorded env ip).
Proof.
  induction 1 as [|p l Hl IH Hp]; [constructor|].
  rewrite bind_cons. unfold recorded at 1. case_decide; [|done].
  simpl. constructor; [done|].
  apply Forall_forall. intros x (q & Hx & Hq)%list_elem_of_bind.
  apply elem_of_recorded in Hx as [-> _].
  rewrite Forall_forall in Hp. left. simpl. by apply Hp.
Qed.

Lemma expected_result_sorted : Sorted tuple_le Expected.
Proof.
  apply StronglySorted_Sorted, recorded_ascending, seqZ_ascending.
Qed.

Lemma elem_of_expected_result x :
  x ∈ Expected ↔
  start_port ≤ x.1 ≤ end_port ∧ reachable env ip x.1 ∧
  x.2 = service_name env x.1.
Proof.
  unfold expected_result. rewrite list_elem_of_bind. split.
  - intros (p & [-> ?]%elem_of_recorded & Hp%elem_of_seqZ). simpl.
    split_and!; [lia|lia|done|done].
  - intros (Hr & ? & Hn). exists x.1. split.
    + apply elem_of_recorded. split; [|done]. destruct x; simpl in *; by subst.
    + apply elem_of_seqZ. lia.
Qed.

Lemma reachable_inv st : rtc (step env ip) init st → Inv st.
Proof.
  revert st. apply rtc_ind_r; [apply inv_init|].
  intros st st' _ Hstep IH. by eapply inv_step.
Qed.

(** Once [queue.join()] has returned, the queue is empty, no worker
    holds anything, and every port of the range has been withdrawn,
    probed and marked done. *)
Lemma drained st :
  Inv st → unfinished_tasks st = 0%nat →
  queue st = [] ∧ thread_list st ≫= held = [] ∧ thread_list st ≫= owed = [] ∧
  snd <$> gets (trace st) = range ∧
  snd <$> probes (trace st) ≡ₚ range ∧
  snd <$> task_dones (trace st) ≡ₚ range ∧
  open_ports st ≡ₚ Expected ∧
  progress_counter st = length range.
Proof.
  intros [Hputs Hstarts Hfifo Hheld Hdone Hunf Hopen Hprog Hmain] Hu.
  rewrite Hu in Hunf.
  assert (queue st = []) as Hq by (apply length_zero_iff_nil; lia).
  assert (thread_list st ≫= held = []) as Hh by (apply length_zero_iff_nil; lia).
  assert (thread_list st ≫= owed = []) as Ho by (apply length_zero_iff_nil; lia).
  rewrite Hq, app_nil_r in Hfifo. rewrite Hh, app_nil_r in Hheld.
  rewrite Ho, app_nil_r in Hdone. rewrite Hfifo in Hheld.
  split_and!; try done.
  - by rewrite <-Hdone, <-Hheld.
  - rewrite Hopen. unfold expected_result. by rewrite <-Hheld.
  - rewrite (owed_nil_counted _ Ho), (owed_nil_lost _ Ho) in Hprog.
    assert (length (task_dones (trace st)) = length range) as Hlen
      by (by rewrite <-(length_fmap snd), <-Hdone, <-Hheld).
    simpl in Hprog. lia.
Qed.

(** The value [scan_ports] returns is a function of the range and of
    what the probes find. *)
Lemma returned_expected st r :
  Inv st → main_pc st = Returned r → r = Expected.
Proof.
  intros HI Hr. pose proof (inv_main _ _ _ _ _ _ HI) as Hm.
  rewrite Hr in Hm. destruct Hm as (_ & Hu & ->).
  apply sorted_unique; [apply expected_result_sorted|].
  by apply drained.
Qed.

End Result.

(** ** Every schedule ends *)

(** A worker that has not ended can always take a step. *)
Lemma worker_can_step env ip st i w :
  thread_list st !! i = Some w → terminated w = false →
  ∃ st', step env ip st st'.
Proof.
  destruct st as [q u ops pc ths m tr]. simpl. intros Hi Hw.
  destruct w as [|port|port|port| |]; try done.
  - destruct q as [|port q]; eexists; [by eapply step_empty|by eapply step_get].
  - destruct (probe env ip port ops) as [[[[]|e] ops'] calls] eqn:Hp;
      eexists; [by eapply step_scan|by eapply step_scan_raise].
  - destruct (print_progress env (S pc)) as [[]|e] eqn:Hpp;
      eexists; [by eapply step_count|by eapply step_count_raise].
  - destruct u; eexists; [by eapply step_done_raise|by eapply step_done].
Qed.

Lemma sum_list_insert ths i w w' :
  ths !! i = Some w →
  (sum_list (wweight <$> <[i := w']> ths) + wweight w =
   sum_list (wweight <$> ths) + wweight w')%nat.
Proof.
  intros Hi.
  rewrite insert_take_drop by (by eapply lookup_lt_Some).
  rewrite <-(take_drop_middle ths i w) at 3 by done.
  rewrite !fmap_app, !fmap_cons, !sum_list_with_app. simpl. lia.
Qed.

Lemma step_measure env ip st st' :
  step env ip st st' → (measure st' < measure st)%nat.
Proof.
  unfold measure.
  destruct 1; simpl;
    rewrite ?length_insert, ?length_app, ?fmap_app, ?sum_list_with_app; simpl;
    try match goal with
    | H : ?ths !! ?i = Some ?w |- context [<[?i := ?w']> ?ths] =>
        pose proof (sum_list_insert ths i w w' H); simpl in *
    end; try lia.
  apply lookup_lt_Some in H. lia.
Qed.

Section Liveness.
Variable env : environment.
Variable ip : string.
Variables start_port end_port num_threads : Z.

Abbreviation range := (port_range start_port end_port).
Abbreviation init := (scan_ports start_port end_port num_threads).
Abbreviation Inv := (inv env ip start_port end_port num_threads).

Abbreviation Valid := (valid_scan start_port end_port num_threads).
Abbreviation Live := (live env ip start_port end_port num_threads).

Lemma held_in_range st i port :
  Inv st → thread_list st !! i = Some (Holding port) →
  start_port ≤ port ≤ end_port.
Proof.
  intros HI Hi.
  assert (port ∈ range) as Hin; [|apply elem_of_seqZ in Hin; lia].
  rewrite <-(inv_fifo _ _ _ _ _ _ HI), (inv_held _ _ _ _ _ _ HI).
  rewrite !elem_of_app. left. right.
  apply list_elem_of_bind. exists (Holding port). split; [set_solver|].
  by eapply list_elem_of_lookup_2.
Qed.

Lemma live_init : Valid → stdout_ok env → Live init.
Proof.
  intros (? & ? & ? & ?) Hout. split_and!; [apply inv_init|by constructor| |done].
  unfold actual_threads. lia.
Qed.

Lemma live_step st st' : Valid → Live st → step env ip st st' → Live st'.
Proof.
  intros (? & ? & ? & ?) (HI & Hh & Hn & Hout) Hstep.
  split_and!; [by eapply inv_step| |done|done].
  unfold healthy in *. destruct Hstep; simpl in *; try done.
  all: try (apply Forall_app; split; [done|by repeat constructor]).
  all: try (apply Forall_insert; [done|done]).
  - (* get: the queue was not empty, so no worker had left *)
    apply Forall_insert; [|done].
    eapply Forall_impl; [done|]. intros w [? Hw]. split; [done|].
    intros ->. by specialize (Hw eq_refl).
  - (* scan raises: not for a port of a valid range *)
    match goal with
    | Hi : _ !! _ = Some (Holding _), Hp : probe _ _ _ _ = _ |- _ =>
        pose proof (held_in_range _ _ _ HI Hi);
        destruct (probe_spec env ip port ops) as [calls' Hs];
        rewrite Hs in Hp; unfold probe_outcome in Hp;
        rewrite decide_True in Hp by (unfold port_in_range; lia)
    end. done.
  - (* the progress bar raises: not on this standard output *)
    match goal with
    | Hp : print_progress _ _ = Raise _ |- _ =>
        unfold print_progress in Hp; by rewrite Hout in Hp
    end.
  - (* task_done raises: there is no such state *)
    match goal with
    | Hi : _ !! _ = Some (Counted _) |- _ =>
        pose proof (lookup_bind_length owed _ _ _ Hi)
    end.
    pose proof (inv_unfinished _ _ _ _ _ _ HI). simpl in *. lia.
Qed.

Lemma live_progress st :
  Live st → (∃ r, main_pc st = Returned r) ∨ ∃ st', step env ip st st'.
Proof.
  intros (HI & Hh & Hn & _).
  destruct (decide (Forall (λ w, terminated w = true) (thread_list st)))
    as [Hall|(w & Hw & Hnt)%not_Forall_Exists%Exists_exists].
  2: { right. apply list_elem_of_lookup in Hw as [i Hi].
       eapply worker_can_step; [done|]. simpl in Hnt. by destruct (terminated w). }
  pose proof (inv_unfinished _ _ _ _ _ _ HI) as Hu.
  pose proof (inv_main _ _ _ _ _ _ HI) as Hm.
  assert (Forall (λ w, w = Exited) (thread_list st)) as Hex.
  { unfold healthy in Hh. rewrite Forall_forall in *. intros w Hw.
    specialize (Hall w Hw). specialize (Hh w Hw) as [Hd _].
    destruct w; try done. by destruct (Hd port e). }
  destruct st as [q u ops pc ths m tr]. simpl in *.
  destruct m as [[|n]|  |k|r].
  - right. eexists. apply step_spawned.
  - right. eexists. apply step_spawn.
  - right. assert (u = 0%nat) as ->; [|eexists; apply step_queue_join].
    rewrite !(bind_all_nil _ ths) in Hu
      by (eapply Forall_impl; [exact Hex|by intros ? ->]).
    destruct ths as [|w ths]; [simpl in *; lia|].
    apply Forall_cons in Hex as [-> Hex]. apply Forall_cons in Hh as [[_ Hq] _].
    simpl in Hq. by rewrite Hq in Hu by done.
  - right. destruct (ths !! k) as [w|] eqn:Hk.
    + eexists. eapply step_thread_join; [done|].
      rewrite Forall_forall in Hall. apply Hall. by eapply list_elem_of_lookup_2.
    + eexists. by eapply step_return.
  - left. eauto.
  - apply _.
Qed.

(** Under every schedule a valid scan whose progress bar can be written
    gets to its [return]. *)
Lemma live_inevitably_returns st :
  Valid → Live st →
  inevitably env ip (λ st', Live st' ∧ ∃ r, main_pc st' = Returned r) st.
Proof.
  intros Hv. remember (measure st) as n eqn:Hn. revert st Hn.
  induction n as [n IH] using lt_wf_ind. intros st -> Hl.
  destruct (live_progress st Hl) as [Hr|Hs].
  - by apply inevitably_now.
  - apply inevitably_step; [done|]. intros st' Hstep.
    eapply IH; [by eapply step_measure|done|by eapply live_step].
Qed.

End Liveness.

(** ** Who probes what *)

Lemma owners_init s e t : owners (scan_ports s e t).
Proof.
  destruct (trace_of_puts (port_range s e)) as (_ & _ & Hg & Hp & _).
  split; simpl; [rewrite Hp; apply list_subseteq_nil|].
  intros i p. by rewrite lookup_nil.
Qed.

Lemma owners_step env ip st st' : owners st → step env ip st st' → owners st'.
Proof.
  intros [Hp Hh] Hstep. destruct Hstep; simpl in *; try done.
  all: split; simpl; trace_snoc.
  all: try match goal with
       | H : _ !! _ = Some (Holding _) |- _ ⊆ _ => apply Hh in H
       end.
  all: try (intros j p [(<- & [= <-] & _)|[_ ?]]%list_lookup_insert_Some).
  all: try (intros j p [(_ & [=] & _)|[_ ?]]%list_lookup_insert_Some).
  all: try (by eauto).
  all: try (apply elem_of_app; left; by eauto).
  all: try (apply elem_of_app; right; by apply list_elem_of_singleton).
  all: try (intros x Hx; apply elem_of_app; left; by apply Hp).
  all: try (intros x [Hx| ->%list_elem_of_singleton]%elem_of_app;
            [by apply Hp|done]).
  intros j p [?|[_ Hj]]%lookup_app_Some; [by eauto|].
  by destruct (j - length ths)%nat as [|[|?]].
Qed.

Lemma reachable_owners env ip s e t st :
  rtc (step env ip) (scan_ports s e t) st → owners st.
Proof.
  revert st. apply rtc_ind_r; [apply owners_init|].
  intros st st' _ Hstep IH. by eapply owners_step.
Qed.

(** When the projections on the ports agree and no port repeats, the
    probes are the withdrawals, worker by worker. *)
Lemma owners_perm (ps gs : list (nat * Z)) :
  ps ⊆ gs → ps.*2 ≡ₚ gs.*2 → NoDup gs.*2 → ps ≡ₚ gs.
Proof.
  intros Hsub Hperm Hnd.
  apply submseteq_length_Permutation.
  - apply NoDup_submseteq; [|done].
    apply (NoDup_fmap_1 snd). by rewrite Hperm.
  - apply Permutation_length in Hperm. by rewrite !length_fmap in Hperm; lia.
Qed.

(** ** The join loop *)

Lemma joined_init s e t : joined (scan_ports s e t).
Proof. by intros j w []. Qed.

Lemma joined_step env ip st st' : joined st → step env ip st st' → joined st'.
Proof.
  intros Hj Hstep. unfold joined in *.
  destruct Hstep; simpl in *; try done.
  all: try (intros j w' Hm [(<- & _ & _)|[_ ?]]%list_lookup_insert_Some;
            [by pose proof (Hj _ _ Hm H)|by eauto]).
  - intros j w'. lia.
  - intros j w' Hjk Hw'. destruct (decide (j = k)) as [->|]; [|apply (Hj j w'); [lia|done]].
    congruence.
  - intros j w' _ Hw'. apply (Hj j w'); [|done].
    apply lookup_lt_Some in Hw'. apply lookup_ge_None in H. lia.
Qed.

(** ** Runs, step by step *)

(** Tactics that take one step of a run. *)
Ltac main_moves c := eapply rtc_l; [c; done|]; simpl.
Ltac worker_moves c := eapply rtc_l; [c; [reflexivity..]|]; simpl.
Ltac spawn := main_moves ltac:(apply step_spawn).
Ltac spawned := main_moves ltac:(apply step_spawned).
Ltac queue_join := main_moves ltac:(apply step_queue_join).
Ltac thread_join := main_moves ltac:(eapply step_thread_join).
Ltac returns := main_moves ltac:(eapply step_return).
Ltac get i := worker_moves ltac:(eapply (step_get _ _ i)).
Ltac empty i := worker_moves ltac:(eapply (step_empty _ _ i)).
Ltac scan i := worker_moves ltac:(eapply (step_scan _ _ i)).
Ltac scan_raises i := worker_moves ltac:(eapply (step_scan_raise _ _ i)).
Ltac count i := worker_moves ltac:(eapply (step_count _ _ i)).
Ltac task_done i := worker_moves ltac:(eapply (step_done _ _ i)).

(** ** Reaching the [return] *)

Section Inevitably.
Variable env : environment.
Variable ip : string.

(** An invariant of the steps holds where [P] is reached. *)
Lemma inevitably_invariant (I P : state → Prop) st :
  (∀ st st', I st → step env ip st st' → I st') →
  I st → inevitably env ip P st → inevitably env ip (λ st', P st' ∧ I st') st.
Proof.
  intros HI Hst Hev. induction Hev as [st HP|st Hred _ IH].
  - by apply inevitably_now.
  - apply inevitably_step; [done|]. intros st' Hstep. apply IH; [done|].
    by eapply HI.
Qed.

Lemma inevitably_mono (P Q : state → Prop) st :
  (∀ st', P st' → Q st') → inevitably env ip P st → inevitably env ip Q st.
Proof.
  intros HPQ Hev. induction Hev as [st HP|st Hred _ IH].
  - apply inevitably_now. by apply HPQ.
  - by apply inevitably_step.
Qed.

End Inevitably.

Lemma ascending_NoDup l : StronglySorted Z.lt l → NoDup l.
Proof.
  induction 1 as [|x l _ IH Hx]; constructor; [|done].
  rewrite Forall_forall in Hx. intros Hin. specialize (Hx x Hin). lia.
Qed.

Lemma recorded_ports_ascending env ip l :
  StronglySorted Z.lt l → StronglySorted Z.lt (l ≫= recorded env ip).*1.
Proof.
  induction 1 as [|p l Hl IH Hp]; [constructor|].
  rewrite bind_cons, fmap_app. unfold recorded at 1. case_decide; [|done].
  simpl. constructor; [done|].
  apply Forall_forall.
  intros q ([q' n] & -> & (p' & Hx & Hq)%list_elem_of_bind)%list_elem_of_fmap.
  apply elem_of_recorded in Hx as [[= -> ->] _].
  rewrite Forall_forall in Hp. simpl. by apply Hp.
Qed.

Lemma recorded_ext env1 env2 ip1 ip2 l :
  Forall (λ p, recorded env1 ip1 p = recorded env2 ip2 p) l →
  l ≫= recorded env1 ip1 = l ≫= recorded env2 ip2.
Proof. induction 1 as [|p l Hp _ IH]; [done|]. by rewrite !bind_cons, Hp, IH. Qed.

(** A valid scan whose progress bar can be written returns, whatever
    the schedule, in a state where the invariants hold. *)
Lemma scan_returns env ip s e t :
  valid_scan s e t → stdout_ok env →
  inevitably env ip
    (λ st, (∃ r, main_pc st = Returned r) ∧ inv env ip s e t st ∧
           owners st ∧ healthy st ∧ joined st)
    (scan_ports s e t).
Proof.
  intros Hv Hout.
  pose proof (live_inevitably_returns env ip s e t _ Hv
                (live_init _ _ _ _ _ Hv Hout)) as Hev.
  apply (inevitably_invariant env ip owners) in Hev;
    [|apply owners_step|apply owners_init].
  apply (inevitably_invariant env ip joined) in Hev;
    [|apply joined_step|apply joined_init].
  eapply inevitably_mono; [|exact Hev].
  intros st [[[(HI & Hh & _) Hr] Ho] Hj]. done.
Qed.

(** What holds when [scan_ports] has returned. *)
Lemma returned_drained env ip s e t st r :
  inv env ip s e t st → main_pc st = Returned r →
  unfinished_tasks st = 0%nat ∧ r = sorted (open_ports st).
Proof.
  intros HI Hr. pose proof (inv_main _ _ _ _ _ _ HI) as Hm.
  rewrite Hr in Hm. by destruct Hm as (_ & ? & ?).
Qed.

(** ** [main] *)

Section MainFacts.
Variable env : environment.
Variable args : arguments.

Lemma halted_stays how out f w :
  rtc (main_step env args) (World (Halted how) out f) w →
  w = World (Halted how) out f.
Proof.
  intros Hrtc. apply rtc_inv in Hrtc as [<-|(w' & Hstep & _)]; [done|].
  inversion Hstep.
Qed.

Lemma main_inv_reachable w :
  rtc (main_step env args) (main env args) w → main_inv env args w.
Proof.
  revert w. apply rtc_ind_r.
  - unfold main, gethostbyname, main_inv.
    by destruct (hosts env (target args)).
  - intros w w' _ Hstep Hw. unfold main_inv in *.
    destruct Hstep as [ip st st' out f Hs|ip st r out f Hr|ip st out f Hr];
      simpl in *.
    + done.
    + unfold finish. destruct (output args) as [path|]; [|done].
      case_decide; [done|]. by destruct (writable env path).
    + destruct Hw as (? & -> & ->). eauto.
Qed.

End MainFacts.

(** ** Some runs *)

(** Two workers that finish port 81 before port 80. *)
Example run_two_workers :
  ∃ st, rtc (step loopback "127.0.0.1") (scan_ports 80 81 2) st ∧
        open_ports st = [(81, "unknown"); (80, "http")] ∧
        main_pc st = Returned [(80, "http"); (81, "unknown")].
Proof.
  eexists. split.
  - unfold scan_ports. simpl. spawn. spawn. spawned.
    get 0%nat. get 1%nat. scan 1%nat. scan 0%nat. count 0%nat. count 1%nat.
    task_done 0%nat. empty 0%nat. task_done 1%nat. empty 1%nat.
    queue_join. thread_join. thread_join. returns.
    apply rtc_refl.
  - split; reflexivity.
Qed.

(** One worker, on the second host. *)
Example run_one_worker :
  ∃ st, rtc (step loopback' "127.0.0.1") (scan_ports 80 81 1) st ∧
        open_ports st = [(80, "http"); (81, "unknown")] ∧
        main_pc st = Returned [(80, "http"); (81, "unknown")].
Proof.
  eexists. split.
  - unfold scan_ports. simpl. spawn. spawned.
    get 0%nat. scan 0%nat. count 0%nat. task_done 0%nat.
    get 0%nat. scan 0%nat. count 0%nat. task_done 0%nat. empty 0%nat.
    queue_join. thread_join. returns. apply rtc_refl.
  - split; reflexivity.
Qed.

(** Range [1, 10] with 100 threads configured, when the spawn loop is over. *)
Example run_ten_workers :
  ∃ st, rtc (step loopback "127.0.0.1") (scan_ports 1 10 100) st ∧
        main_pc st = QueueJoin.
Proof.
  eexists. split.
  - unfold scan_ports. simpl. do 10 spawn. spawned. apply rtc_refl.
  - reflexivity.
Qed.

(** [web], up to the moment port 80 has been found open. *)
Lemma web_run :
  rtc (main_step loopback web) (main loopback web)
      (World (Running "127.0.0.1" web_found) (banner web "127.0.0.1") None).
Proof.
  unfold main. simpl.
  eapply rtc_l; [apply main_scanning, step_spawn|]. simpl.
  eapply rtc_l; [apply main_scanning, step_spawned|].
  eapply rtc_l; [by apply main_scanning, (step_get _ _ 0%nat)|]. simpl.
  eapply rtc_l; [by eapply main_scanning, (step_scan _ _ 0%nat)|]. simpl.
  apply rtc_refl.
Qed.

(** * Theorems *)

Section Scan.
Variable env : environment.
Variable ip : string.
Variables start_port end_port num_threads : Z.

Abbreviation range := (port_range start_port end_port).
Abbreviation init := (scan_ports start_port end_port num_threads).

(** C1, as the code has it. In every state of every run, whatever the
    inputs, each port of the range has been enqueued exactly once
    ([puts]); the ports withdrawn so far are a prefix of the range, the
    rest is still queued, so none is withdrawn twice ([gets]); every
    probe is of a port its worker withdrew, and no port is probed twice
    ([probes]). For a valid range, with at least one thread and a
    standard output that takes every progress bar, the scan returns
    under every schedule, and by then the queue is empty and every port
    of the range has been withdrawn, probed by the worker that withdrew
    it, and marked done, each exactly once. With [start_port = end_port]
    that is one withdrawal and one probe. *)
Theorem scan_probes_each_port_once :
  (∀ st, rtc (step env ip) init st →
     puts (trace st) = range ∧
     (gets (trace st)).*2 ++ queue st = range ∧
     probes (trace st) ⊆ gets (trace st) ∧
     NoDup (gets (trace st)).*2 ∧
     NoDup (probes (trace st)).*2) ∧
  (valid_scan start_port end_port num_threads → stdout_ok env →
   inevitably env ip
     (λ st,
        (∃ r, main_pc st = Returned r) ∧
        queue st = [] ∧
        (gets (trace st)).*2 = range ∧
        probes (trace st) ≡ₚ gets (trace st) ∧
        (task_dones (trace st)).*2 ≡ₚ range ∧
        (start_port = end_port →
         ∃ i, gets (trace st) = [(i, start_port)] ∧
              probes (trace st) = [(i, start_port)]))
     init).
Proof.
  split.
  - intros st Hrtc.
    pose proof (reachable_inv _ _ _ _ _ _ Hrtc) as HI.
    pose proof (reachable_owners _ _ _ _ _ _ Hrtc) as [Hsub _].
    pose proof (inv_fifo _ _ _ _ _ _ HI) as Hfifo.
    pose proof (inv_held _ _ _ _ _ _ HI) as Hheld.
    assert (NoDup (gets (trace st)).*2) as Hnd.
    { pose proof (NoDup_seqZ start_port (end_port + 1 - start_port)) as Hr.
      fold range in Hr. rewrite <-Hfifo in Hr. by apply NoDup_app in Hr as [? _]. }
    split_and!; try done.
    + by apply inv_puts in HI.
    + rewrite Hheld in Hnd. by apply NoDup_app in Hnd as [? _].
  - intros Hv Hout. eapply inevitably_mono; [|by apply scan_returns].
    intros st ([r Hr] & HI & [Hsub _] & _).
    destruct (returned_drained _ _ _ _ _ _ _ HI Hr) as [Hu _].
    destruct (drained _ _ _ _ _ _ HI Hu) as (Hq & _ & _ & Hg & Hp & Hd & _ & _).
    assert (probes (trace st) ≡ₚ gets (trace st)) as Hpg.
    { apply owners_perm; [done|by rewrite Hp, Hg|].
      rewrite Hg. apply NoDup_seqZ. }
    split_and!; try done; [by eexists|].
    intros <-. unfold port_range in Hg.
    replace (start_port + 1 - start_port) with 1 in Hg by lia.
    destruct (gets (trace st)) as [|[i p] [|? ?]]; try done.
    injection Hg as ->. exists i. split; [done|].
    by apply Permutation_singleton_r.
Qed.

(** C2. What [scan_ports] returns is [sorted(open_ports)], and it holds
    exactly the ports of the range whose probe connected, each with the
    name of its service, no port twice, in strictly ascending order of
    port; a port whose probe did not connect is not in it. A valid scan
    whose progress bar can be written does return. *)
Theorem scan_result_reachable_sorted :
  (∀ st r, rtc (step env ip) init st → main_pc st = Returned r →
     r = sorted (open_ports st) ∧
     (∀ port name,
        (port, name) ∈ r ↔
        start_port ≤ port ≤ end_port ∧ reachable env ip port ∧
        name = service_name env port) ∧
     NoDup r.*1 ∧
     StronglySorted Z.lt r.*1) ∧
  (valid_scan start_port end_port num_threads → stdout_ok env →
   inevitably env ip (λ st, ∃ r, main_pc st = Returned r) init).
Proof.
  split.
  - intros st r HI%reachable_inv Hr.
    destruct (returned_drained _ _ _ _ _ _ _ HI Hr) as [_ Hs].
    pose proof (returned_expected _ _ _ _ _ _ _ HI Hr) as ->.
    assert (StronglySorted Z.lt
              (expected_result env ip start_port end_port).*1) as Hasc
      by apply recorded_ports_ascending, seqZ_ascending.
    split_and!; try done.
    + intros port name. by rewrite elem_of_expected_result.
    + by apply ascending_NoDup.
  - intros Hv Hout. eapply inevitably_mono; [|by apply scan_returns].
    by intros st (Hr & _).
Qed.

(** C3. With at least one thread configured and a range that is not
    empty, there are never more workers than [min(t, e-s+1)], hence
    never more workers than ports; they are numbered from 0; and once
    the spawn loop is over there are exactly [min(t, e-s+1)] of them. *)
Theorem worker_count_is_min st :
  1 ≤ num_threads → start_port ≤ end_port →
  rtc (step env ip) init st →
  Z.of_nat (length (thread_list st))
    ≤ Z.min num_threads (end_port - start_port + 1) ∧
  Z.of_nat (length (thread_list st)) ≤ end_port - start_port + 1 ∧
  starts (trace st) = seq 0 (length (thread_list st)) ∧
  ((∀ n, main_pc st ≠ Spawning n) →
   Z.of_nat (length (thread_list st))
     = Z.min num_threads (end_port - start_port + 1)).
Proof.
  intros Ht Hse HI%reachable_inv.
  pose proof (inv_main _ _ _ _ _ _ HI) as Hm.
  pose proof (inv_starts _ _ _ _ _ _ HI) as Hs.
  unfold actual_threads in Hm.
  destruct (main_pc st) as [n| |k|r] eqn:Hpc.
  - split_and!; [lia|lia|done|]. intros Hn. by destruct (Hn n).
  - split_and!; [lia|lia|done|lia].
  - split_and!; [lia|lia|done|lia].
  - split_and!; [lia|lia|done|lia].
Qed.

(** C5, as the code has it. Whatever the operating system answers to
    the probe of a port in 0..65535 (no socket, [connect_ex] raising
    from the [OSError] family, an error code), [scan_port] returns: a
    [socket.error] stays in the probe, which records the port only when
    [connect_ex] returned 0. The worker that holds such a port is not
    ended by its probe: its next step takes it to the counting of the
    port. In a valid scan whose progress bar can be written no worker
    dies, every port is counted, and the scan returns with all workers
    out of their loop. *)
Theorem socket_fault_contained :
  (∀ port ops, port_in_range port →
     ∃ ops' calls,
       probe env ip port ops = (Ret tt, ops', calls) ∧
       (net env ip port = ConnectReturns 0 →
        ops' = ops ++ [(port, service_name env port)]) ∧
       (net env ip port ≠ ConnectReturns 0 → ops' = ops)) ∧
  (∀ st st' i port, port_in_range port →
     thread_list st !! i = Some (Holding port) → step env ip st st' →
     thread_list st' !! i = Some (Holding port) ∨
     thread_list st' !! i = Some (Scanned port)) ∧
  (valid_scan start_port end_port num_threads → stdout_ok env →
   inevitably env ip
     (λ st, (∃ r, main_pc st = Returned r) ∧
            Forall (λ w, w = Exited) (thread_list st) ∧
            progress_counter st = length range)
     init).
Proof.
  split_and!.
  - intros port ops Hp. destruct (probe_spec env ip port ops) as [calls Hs].
    unfold probe_outcome in Hs. rewrite decide_True in Hs by done.
    exists (ops ++ recorded env ip port), calls. split; [done|].
    unfold recorded, reachable. split.
    + intros Hn. by rewrite decide_True.
    + intros Hn. rewrite decide_False by tauto. by rewrite app_nil_r.
  - intros st st' i port Hp Hi Hstep.
    destruct Hstep; simpl in *; try (by left).
    1: { left. by apply lookup_app_l_Some. }
    all: match goal with
         | Hj : ?ths !! ?j = Some _ |- context [<[?j := _]> ?ths] =>
             destruct (decide (i = j)) as [->|Hne];
               [|left; by rewrite list_lookup_insert_ne]
         end.
    all: try congruence.
    + right. rewrite list_lookup_insert_eq by (by eapply lookup_lt_Some).
      congruence.
    + match goal with
      | Hpr : probe _ _ ?q ?ops = _ |- _ =>
          assert (q = port) as -> by congruence;
          destruct (probe_spec env ip port ops) as [calls' Hs];
          rewrite Hs in Hpr; unfold probe_outcome in Hpr;
          rewrite decide_True in Hpr by done
      end. done.
  - intros Hv Hout. eapply inevitably_mono; [|by apply scan_returns].
    intros st ([r Hr] & HI & _ & Hh & Hj). split_and!; [by eexists| |].
    + unfold healthy in Hh. rewrite Forall_forall in *. intros w Hw.
      specialize (Hh w Hw) as [Hd _].
      apply list_elem_of_lookup in Hw as [j Hw].
      unfold joined in Hj. rewrite Hr in Hj. specialize (Hj j w I Hw).
      destruct w; try done. by destruct (Hd port e).
    + destruct (returned_drained _ _ _ _ _ _ _ HI Hr) as [Hu _].
      by destruct (drained _ _ _ _ _ _ HI Hu) as (_ & _ & _ & _ & _ & _ & _ & ?).
Qed.

(** C10. With [end_port < start_port] the number of ports is not
    positive, nothing is ever enqueued, no worker is ever started, and
    the scan returns the empty list, under every schedule. *)
Theorem empty_range_returns_empty :
  end_port < start_port →
  end_port - start_port + 1 ≤ 0 ∧
  (∀ st, rtc (step env ip) init st →
         trace st = [] ∧ thread_list st = [] ∧ queue st = [] ∧
         open_ports st = [] ∧ ∀ r, main_pc st = Returned r → r = []) ∧
  inevitably env ip (λ st, main_pc st = Returned []) init.
Proof.
  intros Hes.
  assert (init = State [] 0 [] 0 [] (Spawning 0) []) as ->.
  { unfold scan_ports, port_range. rewrite seqZ_nil by lia. simpl.
    by rewrite Z2Nat.nonpos by lia. }
  split_and!; [lia| |].
  - intros st Hrtc.
    assert (∃ m, st = State [] 0 [] 0 [] m [] ∧ (∀ n, m ≠ Spawning (S n)) ∧
                 ∀ r, m = Returned r → r = []) as (m & -> & _ & Hm); [|done].
    revert st Hrtc. apply rtc_ind_r; [by eexists|].
    intros st st' _ Hstep (m & -> & Hn & Hm).
    inversion Hstep; subst;
      try (match goal with H : [] !! _ = Some _ |- _ =>
             by rewrite lookup_nil in H end);
      try (by eexists).
    + by destruct (Hn n).
    + eexists. split_and!; [done|done|]. by intros r [= <-].
  - apply inevitably_step; [eexists; apply step_spawned|].
    intros st Hstep. inversion Hstep; subst; try done.
    apply inevitably_step; [eexists; apply step_queue_join|].
    intros st Hstep'. inversion Hstep'; subst; try done.
    apply inevitably_step; [eexists; by apply step_return|].
    intros st Hstep''. inversion Hstep''; subst; try done.
    by apply inevitably_now.
Qed.

End Scan.

Lemma scan_probes_each_port_once_witness :
  valid_scan 80 80 1 ∧ stdout_ok loopback ∧
  inevitably loopback "127.0.0.1"
    (λ st, queue st = [] ∧
           ∃ i, gets (trace st) = [(i, 80)] ∧ probes (trace st) = [(i, 80)])
    (scan_ports 80 80 1).
Proof.
  assert (valid_scan 80 80 1) as Hv by (unfold valid_scan; lia).
  assert (stdout_ok loopback) as Hout by (intros n; reflexivity).
  split; [exact Hv|]. split; [exact Hout|].
  eapply inevitably_mono;
    [|exact (proj2 (scan_probes_each_port_once loopback "127.0.0.1" 80 80 1)
               Hv Hout)].
  intros st (_ & Hq & _ & _ & _ & Hone). split; [exact Hq|].
  exact (Hone eq_refl).
Defined.

(** C1, as stated, fails. With [-t 0] the port of the range [80, 80] is
    enqueued and no worker is started: in no state of any run has the
    port been withdrawn or probed, the scan never returns, and the main
    thread ends up blocked in [queue.join()]. And with one worker on
    [80, 81] and a standard output that has been closed, the worker
    dies in [print_progress] after its first probe: port 81 stays in
    the queue and is never probed. *)
Lemma scan_skips_ports :
  (∀ st, rtc (step loopback "127.0.0.1") (scan_ports 80 80 0) st →
     puts (trace st) = [80] ∧ gets (trace st) = [] ∧ probes (trace st) = [] ∧
     ∀ r, main_pc st ≠ Returned r) ∧
  (∃ st, rtc (step loopback "127.0.0.1") (scan_ports 80 80 0) st ∧
         main_pc st = QueueJoin ∧ queue st = [80] ∧
         ∀ st', ¬ step loopback "127.0.0.1" st st') ∧
  (∃ st, rtc (step closed_pipe "127.0.0.1") (scan_ports 80 81 1) st ∧
         thread_list st = [Died 80 (OSError os_broken_pipe)] ∧
         queue st = [81] ∧ probes (trace st) = [(0%nat, 80)] ∧
         main_pc st = QueueJoin ∧
         ∀ st', ¬ step closed_pipe "127.0.0.1" st st').
Proof.
  split_and!.
  - intros st Hrtc.
    assert (∃ m, st = State [80] 1 [] 0 [] m [EvPut 80] ∧
                 (m = Spawning 0 ∨ m = QueueJoin)) as (m & -> & Hm).
    { revert st Hrtc. apply rtc_ind_r; [by eauto|].
      intros st st' _ Hstep (m & -> & Hm).
      inversion Hstep; subst;
        try (match goal with H : [] !! _ = Some _ |- _ =>
               by rewrite lookup_nil in H end);
        try (by destruct Hm);
        by eauto. }
    split_and!; try done. intros r. by destruct Hm as [-> | ->].
  - eexists. split; [unfold scan_ports; simpl; spawned; apply rtc_refl|].
    split_and!; try reflexivity.
    intros st' Hstep. inversion Hstep; subst;
      match goal with H : [] !! _ = Some _ |- _ =>
        by rewrite lookup_nil in H end.
  - eexists. split.
    { unfold scan_ports. simpl. spawn. spawned. get 0%nat. scan 0%nat.
      eapply rtc_l; [by eapply (step_count_raise _ _ 0%nat)|]. simpl.
      apply rtc_refl. }
    split_and!; try reflexivity.
    intros st' Hstep. inversion Hstep; subst;
      match goal with
      | H : _ !! ?i = Some _ |- _ => by destruct i
      end.
Qed.

Lemma scan_result_reachable_sorted_witness :
  valid_scan 80 81 2 ∧ stdout_ok loopback ∧
  inevitably loopback "127.0.0.1" (λ st, ∃ r, main_pc st = Returned r)
             (scan_ports 80 81 2) ∧
  ∃ st, rtc (step loopback "127.0.0.1") (scan_ports 80 81 2) st ∧
        open_ports st = [(81, "unknown"); (80, "http")] ∧
        main_pc st = Returned [(80, "http"); (81, "unknown")] ∧
        StronglySorted Z.lt [(80, "http"); (81, "unknown")].*1.
Proof.
  assert (valid_scan 80 81 2) as Hv by (unfold valid_scan; lia).
  assert (stdout_ok loopback) as Hout by (intros n; reflexivity).
  destruct (scan_result_reachable_sorted loopback "127.0.0.1" 80 81 2)
    as [Hsafe Hlive].
  split; [exact Hv|]. split; [exact Hout|]. split; [exact (Hlive Hv Hout)|].
  destruct run_two_workers as (st & Hrtc & Ho & Hr).
  exists st. split; [exact Hrtc|]. split; [exact Ho|]. split; [exact Hr|].
  exact (proj2 (proj2 (proj2 (Hsafe st _ Hrtc Hr)))).
Defined.

(** Range [1, 10] with 100 threads configured: ten workers. *)
Lemma worker_count_is_min_witness :
  1 ≤ 100 ∧ 1 ≤ 10 ∧
  ∃ st, rtc (step loopback "127.0.0.1") (scan_ports 1 10 100) st ∧
        main_pc st = QueueJoin ∧
        Z.of_nat (length (thread_list st)) = 10.
Proof.
  assert (1 ≤ 100) as Ht by lia. assert (1 ≤ 10) as Hse by lia.
  split; [exact Ht|]. split; [exact Hse|].
  destruct run_ten_workers as (st & Hrtc & Hpc).
  exists st. split; [exact Hrtc|]. split; [exact Hpc|].
  destruct (worker_count_is_min loopback "127.0.0.1" 1 10 100 st Ht Hse Hrtc)
    as (_ & _ & _ & Heq).
  apply Heq. intros n Hn. rewrite Hpc in Hn. discriminate.
Defined.

(** Port 83 of [loopback], for which no socket can be had. *)
Lemma socket_fault_contained_witness :
  port_in_range 83 ∧ valid_scan 80 83 2 ∧ stdout_ok loopback ∧
  (∃ calls, probe loopback "127.0.0.1" 83 [(80, "http")]
            = (Ret tt, [(80, "http")], calls)) ∧
  inevitably loopback "127.0.0.1"
    (λ st, (∃ r, main_pc st = Returned r) ∧
           Forall (λ w, w = Exited) (thread_list st) ∧
           progress_counter st = length (port_range 80 83))
    (scan_ports 80 83 2).
Proof.
  assert (port_in_range 83) as Hp by (unfold port_in_range; lia).
  assert (valid_scan 80 83 2) as Hv by (unfold valid_scan; lia).
  assert (stdout_ok loopback) as Hout by (intros n; reflexivity).
  destruct (socket_fault_contained loopback "127.0.0.1" 80 83 2)
    as (Hprobe & _ & Hlive).
  split; [exact Hp|]. split; [exact Hv|]. split; [exact Hout|].
  split; [|exact (Hlive Hv Hout)].
  destruct (Hprobe 83 [(80, "http")] Hp) as (ops' & calls & Heq & _ & Hsame).
  exists calls. rewrite Heq. f_equal. f_equal. apply Hsame. discriminate.
Defined.

(** C5, as stated, fails: the [OverflowError] that [connect_ex] raises
    for port 65536 is not a [socket.error]; it leaves [scan_port] and
    [worker], the worker is dead, [task_done()] is never called, and
    the main thread stays in [queue.join()] for ever. *)
Lemma overflow_fault_not_contained :
  probe loopback "127.0.0.1" 65536 [] = (Raise OverflowError, [], [SockOpen]) ∧
  ∃ st,
    rtc (step loopback "127.0.0.1") (scan_ports 65536 65536 1) st ∧
    thread_list st = [Died 65536 OverflowError] ∧
    main_pc st = QueueJoin ∧
    unfinished_tasks st = 1%nat ∧
    ∀ st', ¬ step loopback "127.0.0.1" st st'.
Proof.
  split; [reflexivity|]. eexists. split.
  { unfold scan_ports. simpl. spawn. spawned. get 0%nat. scan_raises 0%nat.
    apply rtc_refl. }
  split_and!; try reflexivity.
  intros st' Hstep. inversion Hstep; subst;
    match goal with
    | H : _ !! ?i = Some _ |- _ => by destruct i
    end.
Qed.

Lemma empty_range_returns_empty_witness :
  3 < 5 ∧
  inevitably loopback "127.0.0.1" (λ st, main_pc st = Returned [])
             (scan_ports 5 3 100).
Proof.
  assert (3 < 5) as Hes by lia. split; [exact Hes|].
  exact (proj2 (proj2 (empty_range_returns_empty loopback "127.0.0.1" 5 3 100 Hes))).
Defined.

(** The socket calls of a probe: [close] is reached only when
    [connect_ex] has returned. *)
Lemma probe_socket_calls env ip port ops :
  (probe env ip port ops).2 =
  match net env ip port with
  | SocketFails _ => []
  | ConnectRaises _ =>
      if decide (port_in_range port) then [SockOpen; SockConnect] else [SockOpen]
  | ConnectReturns _ =>
      if decide (port_in_range port) then [SockOpen; SockConnect; SockClose]
      else [SockOpen]
  end.
Proof.
  probe_unfold.
  destruct (net env ip port) as [k|k|r]; simpl; [done| |].
  - by case_decide.
  - case_decide; [|done]. simpl. destruct (decide (r = 0)); [|done].
    probe_unfold. by rewrite get_service_name_in_range.
Qed.

(** C6. The code at the failing inputs: for port 65536 the socket is
    opened, [connect_ex] raises [OverflowError], and [sock.close()] is
    not reached; for port 82, where [connect_ex] raises a
    [socket.error], the handler runs and the socket is not closed
    either. For port 80, where [connect_ex] returns, it is closed. *)
Theorem scan_port_skips_close :
  probe loopback "127.0.0.1" 65536 [] = (Raise OverflowError, [], [SockOpen]) ∧
  probe loopback "127.0.0.1" 82 [] = (Ret tt, [], [SockOpen; SockConnect]) ∧
  probe loopback "127.0.0.1" 80 [] =
    (Ret tt, [(80, "http")], [SockOpen; SockConnect; SockClose]).
Proof. by split_and!. Qed.

(** C7. For every port number (0..65535) [get_service_name] returns a
    string: the name in the services database when there is one, and
    "unknown" when there is none. *)
Theorem get_service_name_total env port :
  port_in_range port →
  get_service_name env port =
  Ret (match services env port with Some name => name | None => "unknown" end).
Proof. apply get_service_name_in_range. Qed.

Lemma get_service_name_total_witness :
  port_in_range 80 ∧ port_in_range 8080 ∧
  get_service_name loopback 80 = Ret "http" ∧
  get_service_name loopback 8080 = Ret "unknown".
Proof.
  assert (port_in_range 80) as H80 by (unfold port_in_range; lia).
  assert (port_in_range 8080) as H8080 by (unfold port_in_range; lia).
  split_and!; [exact H80|exact H8080| |].
  - exact (get_service_name_total loopback 80 H80).
  - exact (get_service_name_total loopback 8080 H8080).
Defined.

(** C9. Two runs of a scan over the same range, under any schedules
    and with any numbers of threads, whose probes find the same ports
    reachable (and whose services databases name them alike) return the
    same list: each returns [sorted] of its [open_ports], whatever
    order the probes completed in. *)
Theorem scan_result_deterministic env1 env2 ip s e t1 t2 st1 st2 r1 r2 :
  (∀ p, s ≤ p ≤ e → (reachable env1 ip p ↔ reachable env2 ip p)) →
  (∀ p, s ≤ p ≤ e → reachable env1 ip p →
        service_name env1 p = service_name env2 p) →
  rtc (step env1 ip) (scan_ports s e t1) st1 → main_pc st1 = Returned r1 →
  rtc (step env2 ip) (scan_ports s e t2) st2 → main_pc st2 = Returned r2 →
  r1 = r2 ∧ r1 = sorted (open_ports st1) ∧ r2 = sorted (open_ports st2).
Proof.
  intros Hreach Hname HI1%reachable_inv Hr1 HI2%reachable_inv Hr2.
  split; [|split; by eapply returned_drained].
  rewrite (returned_expected _ _ _ _ _ _ _ HI1 Hr1).
  rewrite (returned_expected _ _ _ _ _ _ _ HI2 Hr2).
  apply recorded_ext, Forall_seqZ. intros p Hp.
  assert (s ≤ p ≤ e) as Hp' by lia.
  unfold recorded.
  destruct (decide (reachable env1 ip p)) as [H1|H1].
  - rewrite decide_True by (by apply Hreach). by rewrite Hname.
  - rewrite decide_False; [done|]. intros H2. by apply H1, Hreach.
Qed.

Lemma scan_result_deterministic_witness :
  ∃ st1 st2 r1 r2,
    rtc (step loopback "127.0.0.1") (scan_ports 80 81 2) st1 ∧
    main_pc st1 = Returned r1 ∧
    rtc (step loopback' "127.0.0.1") (scan_ports 80 81 1) st2 ∧
    main_pc st2 = Returned r2 ∧
    open_ports st1 ≠ open_ports st2 ∧
    r1 = r2.
Proof.
  destruct run_two_workers as (st1 & Hrtc1 & Ho1 & Hr1).
  destruct run_one_worker as (st2 & Hrtc2 & Ho2 & Hr2).
  exists st1, st2, [(80, "http"); (81, "unknown")], [(80, "http"); (81, "unknown")].
  split; [exact Hrtc1|]. split; [exact Hr1|].
  split; [exact Hrtc2|]. split; [exact Hr2|].
  split; [rewrite Ho1, Ho2; discriminate|].
  refine (proj1 (scan_result_deterministic loopback loopback' "127.0.0.1"
                   80 81 2 1 st1 st2 _ _ _ _ Hrtc1 Hr1 Hrtc2 Hr2)).
  - intros p Hp. assert (p = 80 ∨ p = 81) as [-> | ->] by lia;
      unfold reachable, port_in_range; simpl;
      (split; intros _; (split; [lia|reflexivity])).
  - intros p Hp _. assert (p = 80 ∨ p = 81) as [-> | ->] by lia; reflexivity.
Defined.

Section MainTheorems.
Variable env : environment.
Variable args : arguments.

(** C4. When the target does not resolve, [main] prints the error and
    stops there: in no state of the program is there a scan, so no
    queue is filled, no worker is started and no port is probed. *)
Theorem unresolved_host_no_scan w :
  hosts env (target args) = None →
  rtc (main_step env args) (main env args) w →
  w = World (Halted (Caught (OSError os_gaierror)))
            ["Error: Could not resolve hostname"] None ∧
  scanning w = None.
Proof.
  intros Hnone Hrtc. unfold main, gethostbyname in Hrtc.
  rewrite Hnone in Hrtc. apply halted_stays in Hrtc as ->. done.
Qed.

(** C8, as the code has it. While the main thread is inside
    [scan_ports] an interrupt is caught by [except KeyboardInterrupt],
    which prints the notice: [main] has then printed the banner and the
    notice and nothing else, and has written no file, so the entries of
    [open_ports] collected so far are dropped. *)
Theorem interrupt_prints_notice_only w ip st :
  rtc (main_step env args) (main env args) w →
  ctl w = Running ip st → (∀ r, main_pc st ≠ Returned r) →
  hosts env (target args) = Some ip ∧
  (∃ w', main_step env args w w' ∧ ctl w' = Halted (Caught KeyboardInterrupt)) ∧
  (∀ w', main_step env args w w' →
         ctl w' = Halted (Caught KeyboardInterrupt) →
         stdout w' = banner args ip ++ [nl +:+ "Scan interrupted by user"] ∧
         file w' = None).
Proof.
  intros Hw%main_inv_reachable Hc Hr. unfold main_inv in Hw.
  rewrite Hc in Hw. destruct Hw as (Hh & Hout & Hf).
  destruct w as [c out f]. simpl in *. subst c out f.
  split_and!; [done| |].
  - eexists. split; [by apply main_interrupted|done].
  - intros w' Hstep Hc'. inversion Hstep; subst; simpl in *; try done.
    by edestruct Hr.
Qed.

End MainTheorems.

Lemma unresolved_host_no_scan_witness :
  hosts loopback (target nowhere) = None ∧
  main loopback nowhere =
    World (Halted (Caught (OSError os_gaierror)))
          ["Error: Could not resolve hostname"] None ∧
  scanning (main loopback nowhere) = None.
Proof.
  assert (hosts loopback (target nowhere) = None) as Hn by reflexivity.
  split; [exact Hn|].
  exact (unresolved_host_no_scan loopback nowhere _ Hn (rtc_refl _ _)).
Defined.

(** C8, as stated, fails: port 80 had been found open and was in
    [open_ports] when the interrupt came, and neither the output nor
    the report file shows it. *)
Lemma interrupt_discards_partial_results :
  ∃ st w,
    rtc (main_step loopback web) (main loopback web)
        (World (Running "127.0.0.1" st) (banner web "127.0.0.1") None) ∧
    open_ports st = [(80, "http")] ∧
    main_step loopback web
        (World (Running "127.0.0.1" st) (banner web "127.0.0.1") None) w ∧
    ctl w = Halted (Caught KeyboardInterrupt) ∧
    stdout w = banner web "127.0.0.1" ++ [nl +:+ "Scan interrupted by user"] ∧
    file w = None ∧
    ¬ reported w (80, "http").
Proof.
  exists web_found, (raised loopback KeyboardInterrupt (banner web "127.0.0.1") None).
  split_and!; try done.
  - apply web_run.
  - by apply main_interrupted.
  - intros [Hin|(path & lines & Hf & _)]; [|done].
    vm_compute in Hin.
    repeat (apply elem_of_cons in Hin as [Hin|Hin]; [discriminate|]).
    by apply elem_of_nil in Hin.
Qed.

Lemma interrupt_prints_notice_only_witness :
  (∀ r, main_pc web_found ≠ Returned r) ∧
  ∃ w', main_step loopback web
          (World (Running "127.0.0.1" web_found) (banner web "127.0.0.1") None)
          w' ∧
        ctl w' = Halted (Caught KeyboardInterrupt) ∧
        stdout w' = banner web "127.0.0.1" ++ [nl +:+ "Scan interrupted by user"] ∧
        file w' = None.
Proof.
  assert (∀ r, main_pc web_found ≠ Returned r) as Hr by (intros r; discriminate).
  split; [exact Hr|].
  destruct (interrupt_prints_notice_only loopback web _ _ _ web_run eq_refl Hr)
    as (_ & (w' & Hstep & Hc) & Hout).
  exists w'. split; [exact Hstep|]. split; [exact Hc|].
  exact (Hout w' Hstep Hc).
Defined.

(** * Further properties of the scan *)

Section Casualties.
Variable env : environment.
Variable ip : string.
Variables start_port end_port num_threads : Z.

Abbreviation range := (port_range start_port end_port).
Abbreviation init := (scan_ports start_port end_port num_threads).
Abbreviation Inv := (inv env ip start_port end_port num_threads).

Lemma probe_outcome_cases port :
  probe_outcome env ip port = Ret tt ∨
  probe_outcome env ip port = Raise OverflowError.
Proof.
  unfold probe_outcome. case_decide; [by left|].
  destruct (net env ip port); auto.
Qed.

Lemma casualties_init : casualties env ip init.
Proof.
  destruct (trace_of_puts range) as (_ & _ & _ & Hp & _).
  split; simpl.
  - intros i p e. by rewrite lookup_nil.
  - intros i p. rewrite Hp. by intros ?%elem_of_nil.
Qed.

Lemma casualties_step st st' :
  Inv st → casualties env ip st → step env ip st st' → casualties env ip st'.
Proof.
  intros HI [Hd Hp] Hstep.
  pose proof (inv_unfinished _ _ _ _ _ _ HI) as Hu.
  destruct Hstep; simpl in *; try done.
  all: try match goal with
       | Hpr : probe _ _ ?port ?ops = _ |- _ =>
           destruct (probe_spec env ip port ops) as [calls' Hs];
           rewrite Hs in Hpr; injection Hpr as Hout _ _
       end.
  all: try match goal with
       | Hi : _ !! _ = Some (Counted _) |- context [ValueError] =>
           pose proof (lookup_bind_length owed _ _ _ Hi); simpl in *; lia
       end.
  all: split; simpl; trace_snoc.
  (* the dead *)
  all: try (intros j p' e' [(<- & [=] & _)|[_ ?]]%list_lookup_insert_Some;
            by eauto).
  all: try (intros j p' e' [(<- & [= <- <-] & _)|[_ ?]]%list_lookup_insert_Some;
            [|by eauto];
            first
              [ left; destruct (probe_outcome_cases port) as [Hc|Hc];
                rewrite Hc in Hout; by simplify_eq
              | right;
                match goal with
                | Hpp : print_progress _ ?n = Raise _ |- _ =>
                    unfold print_progress in Hpp;
                    destruct (stdout_write env n) as [k|] eqn:Hk;
                    [injection Hpp as <-; by eauto|done]
                end ]).
  all: try (intros j p' e' [?|[_ Hj]]%lookup_app_Some; [by eauto|];
            by destruct (j - length ths)%nat as [|[|?]]).
  (* the probes that raised *)
  all: try (intros j p' Hin Hr; rewrite list_lookup_insert_ne;
            [by eauto|];
            intros <-; specialize (Hp _ _ Hin Hr); congruence).
  - intros j p' Hin Hr. rewrite lookup_app_l; [by eauto|].
    eapply lookup_lt_Some. by eapply Hp.
  - intros j p' [Hin|Hin%list_elem_of_singleton]%elem_of_app Hr.
    + rewrite list_lookup_insert_ne; [by eauto|].
      intros <-. specialize (Hp _ _ Hin Hr). congruence.
    + injection Hin as -> ->. congruence.
  - intros j p' [Hin|Hin%list_elem_of_singleton]%elem_of_app Hr.
    + rewrite list_lookup_insert_ne; [by eauto|].
      intros <-. specialize (Hp _ _ Hin Hr). congruence.
    + injection Hin as -> ->.
      rewrite list_lookup_insert_eq by (by eapply lookup_lt_Some).
      rewrite Hr in Hout. by injection Hout as <-.
Qed.

Lemma reachable_casualties st :
  rtc (step env ip) init st → casualties env ip st.
Proof.
  intros Hrtc. assert (Inv st ∧ casualties env ip st) as [_ ?]; [|done].
  revert st Hrtc. apply rtc_ind_r.
  - split; [apply inv_init|apply casualties_init].
  - intros st st' _ Hstep [HI Hc]. split; [by eapply inv_step|].
    by eapply casualties_step.
Qed.

Lemma reachable_joined st : rtc (step env ip) init st → joined st.
Proof.
  revert st. apply rtc_ind_r; [apply joined_init|].
  intros st st' _ Hstep IH. by eapply joined_step.
Qed.

End Casualties.

Lemma counted_lost_le_owed ths :
  (length (ths ≫= counted) + length (ths ≫= lost)
   ≤ length (ths ≫= owed))%nat.
Proof.
  induction ths as [|w ths IH]; [done|].
  rewrite !bind_cons, !length_app. destruct w; simpl; lia.
Qed.

Lemma recorded_ports env ip l :
  (l ≫= recorded env ip).*1 = filter (reachable env ip) l.
Proof.
  induction l as [|p l IH]; [done|].
  rewrite bind_cons, fmap_app, IH, filter_cons. unfold recorded.
  by case_decide.
Qed.

(** A run that ends with its only worker dead. *)
Example run_overflow :
  ∃ st, rtc (step loopback "127.0.0.1") (scan_ports 65536 65536 1) st ∧
        thread_list st = [Died 65536 OverflowError] ∧
        main_pc st = QueueJoin.
Proof.
  eexists. split.
  - unfold scan_ports. simpl. spawn. spawned. get 0%nat. scan_raises 0%nat.
    apply rtc_refl.
  - split; reflexivity.
Qed.

(** A run with no thread, at [queue.join()]. *)
Example run_no_thread :
  ∃ st, rtc (step loopback "127.0.0.1") (scan_ports 80 81 0) st ∧
        main_pc st = QueueJoin.
Proof.
  eexists. split.
  - unfold scan_ports. simpl. spawned. apply rtc_refl.
  - reflexivity.
Qed.

Section ScanExtras.
Variable env : environment.
Variable ip : string.
Variables start_port end_port num_threads : Z.

Abbreviation range := (port_range start_port end_port).
Abbreviation init := (scan_ports start_port end_port num_threads).
Abbreviation Inv := (inv env ip start_port end_port num_threads).

Lemma owed_in_range st p :
  Inv st → p ∈ thread_list st ≫= owed ∨ p ∈ (probes (trace st)).*2 →
  start_port ≤ p ≤ end_port.
Proof.
  intros HI Hp.
  assert (p ∈ range) as Hin; [|apply elem_of_seqZ in Hin; lia].
  rewrite <-(inv_fifo _ _ _ _ _ _ HI), (inv_held _ _ _ _ _ _ HI).
  rewrite !elem_of_app. left. left.
  destruct Hp as [Hp|Hp]; [|done].
  rewrite (inv_done _ _ _ _ _ _ HI), elem_of_app. by right.
Qed.


(** X2. When the range holds a port outside 0..65535 for which a socket
    can be opened, [scan_ports] never returns: in every run the main
    thread stays in the spawn loop or blocked in [queue.join()]. *)
Theorem bad_port_never_returns p st :
  start_port ≤ p ≤ end_port → ¬ port_in_range p →
  (∀ k, net env ip p ≠ SocketFails k) →
  rtc (step env ip) init st →
  (∃ n, main_pc st = Spawning n) ∨ main_pc st = QueueJoin.
Proof.
  intros Hp Hnr Hsock Hrtc.
  pose proof (reachable_inv _ _ _ _ _ _ Hrtc) as HI.
  destruct (reachable_casualties _ _ _ _ _ _ Hrtc) as [_ Hc].
  assert (unfinished_tasks st = 0%nat → False) as Hu.
  { intros Hu.
    destruct (drained _ _ _ _ _ _ HI Hu) as (_ & _ & Ho & _ & Hpr & _).
    assert (p ∈ (probes (trace st)).*2) as ([j p'] & -> & Hin)%list_elem_of_fmap.
    { rewrite Hpr. apply elem_of_seqZ. lia. }
    simpl in *. assert (probe_outcome env ip p' = Raise OverflowError) as Hout.
    { unfold probe_outcome. rewrite decide_False by done.
      destruct (net env ip p') as [k| |] eqn:Hn; [by destruct (Hsock k)|done|done]. }
    pose proof (lookup_bind_length owed _ _ _ (Hc _ _ Hin Hout)) as Hl.
    rewrite Ho in Hl. simpl in Hl. lia. }
  pose proof (inv_main _ _ _ _ _ _ HI) as Hm.
  destruct (main_pc st) as [n| |k|r]; [by eauto|by right| |].
  - destruct Hm as [_ ?]. by destruct Hu.
  - destruct Hm as (_ & ? & _). by destruct Hu.
Qed.

(** X3. With no thread to start ([num_threads <= 0]) and a range that
    is not empty, no worker is ever started, no port is ever withdrawn
    or probed, and [scan_ports] never returns: the main thread gets to
    [queue.join()] and stays there, with all ports still queued. *)
Theorem no_threads_never_returns :
  num_threads ≤ 0 → start_port ≤ end_port →
  (∀ st, rtc (step env ip) init st →
     thread_list st = [] ∧ queue st = range ∧
     gets (trace st) = [] ∧ probes (trace st) = [] ∧
     unfinished_tasks st = length range ∧
     (main_pc st = Spawning 0 ∨ main_pc st = QueueJoin)) ∧
  (∃ st, rtc (step env ip) init st ∧ main_pc st = QueueJoin ∧
         ∀ st', ¬ step env ip st st').
Proof.
  intros Ht Hse.
  assert (∃ p q, range = p :: q) as (p & q & Hrange).
  { unfold port_range. rewrite seqZ_cons by lia. eauto. }
  assert (init = State range (length range) [] 0 [] (Spawning 0) (EvPut <$> range))
    as Hinit.
  { unfold scan_ports. by rewrite Z2Nat.nonpos by lia. }
  assert (∀ st, rtc (step env ip) init st →
            ∃ m, st = State range (length range) [] 0 [] m (EvPut <$> range) ∧
                 (m = Spawning 0 ∨ m = QueueJoin)) as Hall.
  { apply rtc_ind_r; [rewrite Hinit; by eauto|].
    intros st st' _ Hstep (m & -> & Hm).
    inversion Hstep; subst;
      try (match goal with H : [] !! _ = Some _ |- _ =>
             by rewrite lookup_nil in H end);
      try (by destruct Hm);
      try (by eauto).
    rewrite Hrange in *. simpl in *. lia. }
  destruct (trace_of_puts range) as (_ & _ & Hg & Hp & _).
  split.
  - intros st (m & -> & Hm)%Hall. by split_and!.
  - exists (State range (length range) [] 0 [] QueueJoin (EvPut <$> range)).
    split_and!; [|done|].
    + rewrite Hinit. apply rtc_once, step_spawned.
    + intros st' Hstep. inversion Hstep; subst;
        try (match goal with H : [] !! _ = Some _ |- _ =>
               by rewrite lookup_nil in H end).
      rewrite Hrange in *. simpl in *. lia.
Qed.

(** X4. In every state of every run the tasks are accounted for: the
    unfinished tasks and the tasks marked done add up to the number of
    ports, and the progress counter lies between the number of tasks
    marked done and the number of ports. When [scan_ports] returns the
    counter is the number of ports and no task is unfinished. *)
Theorem progress_accounting st :
  rtc (step env ip) init st →
  (unfinished_tasks st + length (task_dones (trace st)) = length range)%nat ∧
  (length (task_dones (trace st)) ≤ progress_counter st)%nat ∧
  (progress_counter st ≤ length range)%nat ∧
  (∀ r, main_pc st = Returned r →
        progress_counter st = length range ∧ unfinished_tasks st = 0%nat).
Proof.
  intros HI%reachable_inv.
  pose proof (inv_fifo _ _ _ _ _ _ HI) as Hfifo.
  pose proof (inv_held _ _ _ _ _ _ HI) as Hheld.
  pose proof (inv_done _ _ _ _ _ _ HI) as Hdone.
  pose proof (inv_unfinished _ _ _ _ _ _ HI) as Hunf.
  pose proof (inv_progress _ _ _ _ _ _ HI) as Hprog.
  pose proof (counted_lost_le_owed (thread_list st)) as Hco.
  apply (f_equal length) in Hfifo. apply Permutation_length in Hheld, Hdone.
  rewrite !length_app, !length_fmap in *.
  split_and!; [lia|lia|lia|].
  intros r Hr. destruct (returned_drained _ _ _ _ _ _ _ HI Hr) as [Hu _].
  split; [|done]. by destruct (drained _ _ _ _ _ _ HI Hu) as (_&_&_&_&_&_&_&?).
Qed.

(** X5. When [scan_ports] has returned, nothing moves any more: every
    worker has left its loop through [Empty] (none is running, none is
    dead), the queue is empty, and no step of any thread is possible,
    so the list that was sorted is final. *)
Theorem returned_is_final st r :
  rtc (step env ip) init st → main_pc st = Returned r →
  Forall (λ w, w = Exited) (thread_list st) ∧ queue st = [] ∧
  ∀ st', ¬ step env ip st st'.
Proof.
  intros Hrtc Hr.
  pose proof (reachable_inv _ _ _ _ _ _ Hrtc) as HI.
  pose proof (reachable_joined _ _ _ _ _ _ Hrtc) as Hj.
  destruct (returned_drained _ _ _ _ _ _ _ HI Hr) as [Hu _].
  destruct (drained _ _ _ _ _ _ HI Hu) as (Hq & _ & Ho & _).
  assert (Forall (λ w, w = Exited) (thread_list st)) as Hex.
  { apply Forall_forall. intros w Hw.
    pose proof Hw as [j Hjw]%list_elem_of_lookup.
    unfold joined in Hj. rewrite Hr in Hj. specialize (Hj j w I Hjw).
    destruct w as [| | | | |p e]; try done.
    pose proof (lookup_bind_length owed _ _ _ Hjw) as Hl.
    rewrite Ho in Hl. simpl in Hl. lia. }
  split_and!; try done.
  intros st' Hstep. rewrite Forall_forall in Hex.
  destruct Hstep; simpl in *; try done;
    match goal with
    | H : _ !! _ = Some _ |- _ =>
        apply list_elem_of_lookup_2, Hex in H; discriminate
    end.
Qed.

(** X6. At every moment of every run, [open_ports] holds only ports of
    the range whose probe connected, each with its service name, and no
    port twice; and a step never removes or changes an entry: it leaves
    the list as it is or appends one entry to it. *)
Theorem open_ports_only_grow st :
  rtc (step env ip) init st →
  (∀ port name, (port, name) ∈ open_ports st →
     start_port ≤ port ≤ end_port ∧ reachable env ip port ∧
     name = service_name env port) ∧
  NoDup (open_ports st).*1 ∧
  (∀ st', step env ip st st' →
     open_ports st' = open_ports st ∨
     ∃ x, open_ports st' = open_ports st ++ [x]).
Proof.
  intros Hrtc.
  pose proof (reachable_inv _ _ _ _ _ _ Hrtc) as HI.
  pose proof (inv_open _ _ _ _ _ _ HI) as Hopen.
  pose proof (inv_fifo _ _ _ _ _ _ HI) as Hfifo.
  pose proof (inv_held _ _ _ _ _ _ HI) as Hheld.
  split_and!.
  - intros port name. rewrite Hopen.
    intros (p & [[= -> ->] Hr]%elem_of_recorded & Hp)%list_elem_of_bind.
    split; [|done]. eapply owed_in_range; [done|by right].
  - rewrite Hopen, recorded_ports. apply NoDup_filter.
    pose proof (NoDup_seqZ start_port (end_port + 1 - start_port)) as Hnd.
    fold range in Hnd. rewrite <-Hfifo, Hheld in Hnd.
    by apply NoDup_app in Hnd as [[? _]%NoDup_app _].
  - intros st' Hstep. destruct Hstep; simpl; try (by left).
    all: match goal with
         | Hpr : probe _ _ ?port ?ops = _ |- _ =>
             destruct (probe_spec env ip port ops) as [calls' Hs];
             rewrite Hs in Hpr; injection Hpr as _ <- _
         end.
    all: unfold recorded; case_decide; [by eauto|left; by rewrite app_nil_r].
Qed.

(** X15. Whenever a worker is about to count a port and call
    [print_progress(current, total_ports)], the total is at least 1 and
    the value it will pass as [current] lies between 1 and the total: the
    division in [print_progress] is never by zero and its quotient is
    never above 1. *)
Theorem print_progress_arguments st i p :
  rtc (step env ip) init st →
  thread_list st !! i = Some (Scanned p) →
  1 ≤ end_port - start_port + 1 ∧
  1 ≤ Z.of_nat (S (progress_counter st)) ≤ end_port - start_port + 1.
Proof.
  intros HI%reachable_inv Hi.
  pose proof (inv_fifo _ _ _ _ _ _ HI) as Hfifo.
  pose proof (inv_held _ _ _ _ _ _ HI) as Hheld.
  pose proof (inv_done _ _ _ _ _ _ HI) as Hdone.
  pose proof (inv_progress _ _ _ _ _ _ HI) as Hprog.
  apply (f_equal length) in Hfifo. apply Permutation_length in Hheld, Hdone.
  unfold port_range in Hfifo.
  rewrite !length_app, !length_fmap, ?length_seqZ in *.
  assert (length (thread_list st ≫= counted)
          + length (thread_list st ≫= lost) + 1
          ≤ length (thread_list st ≫= owed))%nat as Hco.
  { rewrite <-(take_drop_middle _ _ _ Hi), !bind_app, !bind_cons, !length_app.
    pose proof (counted_lost_le_owed (take i (thread_list st))).
    pose proof (counted_lost_le_owed (drop (S i) (thread_list st))).
    simpl. lia. }
  lia.
Qed.

End ScanExtras.

(** * Further properties of one probe *)

(** X7. What a call of [scan_port] can do, for any port and any answer
    of the operating system: it returns, or [OverflowError] leaves it,
    and that exactly when the port is outside 0..65535 and a socket
    could be opened; [open_ports] gets the entry of the port when
    [connect_ex] returned 0 and is left as it was otherwise. *)
Theorem scan_port_outcome env ip port ops :
  ∃ r ops' calls,
    probe env ip port ops = (r, ops', calls) ∧
    (r = Ret tt ∨ r = Raise OverflowError) ∧
    (r = Raise OverflowError ↔
     ¬ port_in_range port ∧ ∀ k, net env ip port ≠ SocketFails k) ∧
    (port_in_range port ∧ net env ip port = ConnectReturns 0 →
     ops' = ops ++ [(port, service_name env port)]) ∧
    (¬ (port_in_range port ∧ net env ip port = ConnectReturns 0) →
     ops' = ops).
Proof.
  destruct (probe_spec env ip port ops) as [calls Hs].
  exists (probe_outcome env ip port), (ops ++ recorded env ip port), calls.
  split; [done|]. unfold probe_outcome, recorded, reachable. split_and!.
  - case_decide; [by left|]. destruct (net env ip port); auto.
  - case_decide; [split; [done|tauto]|].
    destruct (net env ip port) as [k| |] eqn:Hn.
    + split; [done|]. intros [_ Hk]. by destruct (Hk k).
    + done.
    + done.
  - intros. by rewrite decide_True.
  - intros. rewrite decide_False by done. by rewrite app_nil_r.
Qed.

(** X8. The socket calls of a probe come in the order open, connect,
    close, each at most once; the socket is closed exactly when
    [connect_ex] returned (with any error code), so the socket of a
    port that was recorded as open has always been closed. *)
Theorem socket_calls_in_order env ip port ops :
  (probe env ip port ops).2 `prefix_of` [SockOpen; SockConnect; SockClose] ∧
  (SockClose ∈ (probe env ip port ops).2 ↔
   port_in_range port ∧ ∃ errno, net env ip port = ConnectReturns errno) ∧
  ((probe env ip port ops).1.2 ≠ ops → SockClose ∈ (probe env ip port ops).2).
Proof.
  assert (SockClose ∈ (probe env ip port ops).2 ↔
          port_in_range port ∧ ∃ errno, net env ip port = ConnectReturns errno)
    as Hclose.
  { rewrite probe_socket_calls.
    assert (∀ l, SockClose ∈ l → l = [] ∨ l = [SockOpen] ∨
                 l = [SockOpen; SockConnect] → False) as Hno.
    { intros l Hin [-> | [-> | ->]];
        repeat (apply elem_of_cons in Hin as [Hin|Hin]; [discriminate|]);
        by apply elem_of_nil in Hin. }
    destruct (net env ip port) as [k|k|r]; [| |case_decide].
    - split; [intros Hin; destruct (Hno _ Hin); auto|by intros [_ [? ?]]].
    - split; [|by intros [_ [? ?]]].
      intros Hin. destruct (Hno _ Hin). case_decide; auto.
    - split; [by eauto|]. intros _. do 2 apply list_elem_of_further.
      apply list_elem_of_here.
    - split; [|tauto]. intros Hin. destruct (Hno _ Hin). auto. }
  split_and!; [|done|].
  - rewrite probe_socket_calls.
    destruct (net env ip port); repeat case_decide;
      first [by exists [SockOpen; SockConnect; SockClose]
            |by exists [SockConnect; SockClose]
            |by exists [SockClose]
            |by exists []].
  - intros Hrec. apply Hclose.
    destruct (probe_spec env ip port ops) as [calls Hs].
    rewrite Hs in Hrec. simpl in Hrec. unfold recorded in Hrec.
    case_decide as Hr; [|by rewrite app_nil_r in Hrec].
    destruct Hr. eauto.
Qed.

(** * Further properties of the report *)

Lemma length_string_app s1 s2 :
  String.length (s1 +:+ s2) = (String.length s1 + String.length s2)%nat.
Proof. induction s1 as [|c s1 IH]; simpl; [done|]. by rewrite IH. Qed.

Lemma length_repeat_string s n :
  String.length (repeat_string s n) = (n * String.length s)%nat.
Proof.
  induction n as [|n IH]; simpl; [done|]. by rewrite length_string_app, IH.
Qed.

Lemma length_ljust width s :
  String.length (ljust width s) = (width `max` String.length s)%nat.
Proof.
  unfold ljust. rewrite length_string_app, length_repeat_string. simpl. lia.
Qed.

Lemma length_pretty_N_go k x s :
  (x < 10 ^ N.of_nat k)%N →
  (String.length (pretty_N_go x s) ≤ k + String.length s)%nat.
Proof.
  revert x s. induction k as [|k IH]; intros x s Hx.
  - assert (x = 0%N) as -> by (simpl in Hx; lia). rewrite pretty_N_go_0. lia.
  - destruct (decide (x = 0%N)) as [->|Hx0]; [rewrite pretty_N_go_0; lia|].
    rewrite pretty_N_go_step by lia.
    etrans; [apply IH|simpl; lia].
    rewrite Nat2N.inj_succ, N.pow_succ_r' in Hx.
    apply N.Div0.div_lt_upper_bound. lia.
Qed.

(** The decimal form of a port number has at most five digits. *)
Lemma length_str_port port :
  port_in_range port → (String.length (str port) ≤ 5)%nat.
Proof.
  intros [H0 H1]. unfold str, pretty, pretty_Z.
  destruct port as [|p|p]; [simpl; lia| |lia].
  unfold pretty, pretty_positive, pretty, pretty_N. simpl.
  pose proof (length_pretty_N_go 5 (N.pos p) "") as Hl. simpl in Hl.
  apply Hl. lia.
Qed.

(** X9. When there is an open port, what [print_results] prints is five
    lines of heading, then the table, then an empty line; the table is
    the column titles, the rule and one row per entry, in the order of
    the list. For port numbers and service names of at most 20
    characters every line of the table is exactly 30 characters wide. *)
Theorem table_aligned env args open_ports :
  open_ports ≠ [] →
  Forall (λ x, port_in_range x.1 ∧ (String.length x.2 ≤ 20)%nat) open_ports →
  ∃ head table,
    print_results env args open_ports = head ++ table ++ [""] ∧
    length head = 5%nat ∧
    drop 2 table = result_row <$> open_ports ∧
    Forall (λ line, String.length line = 30%nat) table.
Proof.
  intros Hne Hall.
  exists [ nl +:+ repeat_string "=" 70;
           "Scan Results for " +:+ target args;
           "Scan duration: " +:+ elapsed env +:+ " seconds";
           repeat_string "=" 70 +:+ nl;
           "Found " +:+ str (Z.of_nat (length open_ports)) +:+ " open ports:"
             +:+ nl ],
         ([ ljust 10 "PORT" +:+ ljust 20 "SERVICE"; repeat_string "-" 30 ]
          ++ (result_row <$> open_ports)).
  split_and!.
  - unfold print_results. by destruct open_ports.
  - done.
  - done.
  - do 2 (constructor; [by vm_compute|]).
  apply Forall_fmap. eapply Forall_impl; [exact Hall|].
  intros [port name] [Hp Hn]. unfold result_row.
  pose proof (length_str_port port Hp).
  unfold compose. cbn beta. rewrite length_string_app, !length_ljust.
  cbn [fst snd] in *. lia.
Qed.

Lemma table_aligned_witness :
  ∃ head table,
    print_results loopback web [(80, "http")] = head ++ table ++ [""] ∧
    length head = 5%nat ∧
    drop 2 table = result_row <$> [(80, "http")] ∧
    Forall (λ line, String.length line = 30%nat) table.
Proof.
  apply table_aligned; [discriminate|].
  constructor; [|constructor]. split; [unfold port_in_range; simpl; lia|simpl; lia].
Defined.

(** * Further properties of [main] *)

Section MainExtras.
Variable env : environment.
Variable args : arguments.

Abbreviation scan_of_args :=
  (scan_ports (start args) (end_ args) (threads args)).
Abbreviation expected ip :=
  (expected_result env ip (start args) (end_ args)).

Lemma main_step_scan ip st st' out f :
  rtc (step env ip) st st' →
  rtc (main_step env args) (World (Running ip st) out f)
      (World (Running ip st') out f).
Proof.
  induction 1 as [|st st1 st2 Hstep _ IH]; [apply rtc_refl|].
  eapply rtc_l; [by apply main_scanning|done].
Qed.

(** While the scan runs, [main] has printed the banner, and the scan is
    in a state it can reach. *)
Lemma main_scan_reachable w :
  rtc (main_step env args) (main env args) w →
  match ctl w with
  | Running ip st =>
      hosts env (target args) = Some ip ∧
      stdout w = banner args ip ∧ file w = None ∧
      rtc (step env ip) scan_of_args st
  | Halted _ => True
  end.
Proof.
  revert w. apply rtc_ind_r.
  - unfold main, gethostbyname.
    destruct (hosts env (target args)) as [ip|]; simpl; [|done].
    split_and!; try done.
  - intros w w' _ Hstep Hw.
    destruct Hstep as [ip st st' out f Hs|ip st r out f Hr|ip st out f Hr];
      simpl in *.
    + destruct Hw as (? & ? & ? & ?). split_and!; try done. by eapply rtc_r.
    + unfold finish. destruct (output args) as [path|]; [|done].
      case_decide; [done|]. by destruct (writable env path).
    + done.
Qed.

(** How a run got to a halt after the host had been resolved. *)
Lemma main_halted_after_scan w how :
  rtc (main_step env args) (main env args) w →
  ctl w = Halted how →
  (hosts env (target args) = None ∧ w = main env args) ∨
  ∃ ip, hosts env (target args) = Some ip ∧
        (w = raised env KeyboardInterrupt (banner args ip) None ∨
         w = finish env args ip (expected ip) (banner args ip)).
Proof.
  intros Hrtc Hw. apply rtc_inv_r in Hrtc as [<-|(w0 & Hrtc & Hstep)].
  - left. split; [|done]. unfold main, gethostbyname in Hw.
    by destruct (hosts env (target args)).
  - right. pose proof (main_scan_reachable _ Hrtc) as H0.
    destruct Hstep as [ip st st' out f Hs|ip st r out f Hr|ip st out f Hr];
      simpl in *; [done| |].
    + destruct H0 as (Hh & -> & -> & Hst). exists ip. split; [done|]. right.
      by rewrite (returned_expected _ _ _ _ _ _ _
                    (reachable_inv _ _ _ _ _ _ Hst) Hr).
    + destruct H0 as (Hh & -> & -> & Hst). exists ip. split; [done|]. by left.
Qed.

(** X10. When [main] runs to its end, it has printed the banner and
    then the results for exactly the ports of the range whose probe
    connected, in ascending order; with a non-empty [-o] path it has
    written the report for the same list to that file (which could be
    opened), and without one it has written nothing. *)
Theorem main_completed_output w :
  rtc (main_step env args) (main env args) w →
  ctl w = Halted Completed →
  ∃ ip,
    hosts env (target args) = Some ip ∧
    stdout w = banner args ip ++ print_results env args (expected ip) ∧
    file w =
      match output args with
      | Some path =>
          if decide (path = "") then None
          else Some (path, report env args ip (expected ip))
      | None => None
      end ∧
    (∀ path, output args = Some path → path ≠ "" → writable env path = true).
Proof.
  intros Hrtc Hw.
  destruct (main_halted_after_scan _ _ Hrtc Hw)
    as [[Hn ->]|(ip & Hh & [->| ->])].
  - unfold main, gethostbyname in Hw. by rewrite Hn in Hw.
  - done.
  - exists ip. split; [done|]. unfold finish in *.
    destruct (output args) as [path|]; [|by split_and!].
    destruct (decide (path = "")) as [->|Hne].
    { split_and!; try done. by intros ? [= <-] ?. }
    destruct (writable env path) eqn:Hwr; [|done].
    split_and!; try done. by intros ? [= <-] _.
Qed.

(** X11. When [scan_ports] has returned and the file named by [-o]
    cannot be opened, [main] goes on, if nothing interrupts it, to print
    the results for the ports of the range whose probe connected all
    the same, then the error, and stops in the [except Exception]
    clause without a report. *)
Theorem main_report_unwritable w ip st r path :
  rtc (main_step env args) (main env args) w →
  ctl w = Running ip st → main_pc st = Returned r →
  output args = Some path → path ≠ "" → writable env path = false →
  ∃ w', main_step env args w w' ∧
        ctl w' = Halted (Caught (OSError os_generic)) ∧
        stdout w' =
          banner args ip ++ print_results env args (expected ip) ++
          ["An error occurred: " +:+ strerror env (OSError os_generic)] ∧
        file w' = None.
Proof.
  intros Hrtc Hc Hr Ho Hne Hwr.
  pose proof (main_scan_reachable _ Hrtc) as H0. rewrite Hc in H0.
  destruct H0 as (_ & Hout & Hf & Hst).
  pose proof (returned_expected _ _ _ _ _ _ _
                (reachable_inv _ _ _ _ _ _ Hst) Hr) as ->.
  destruct w as [c out f]. simpl in *. subst c out f.
  eexists. split; [by apply main_returned|].
  unfold finish. rewrite Ho, decide_False, Hwr by done. simpl.
  by rewrite <-(assoc_L (++)).
Qed.

(** X12. For a host that resolves, a valid scan and a standard output
    that takes every progress bar, whatever the schedule, [scan_ports]
    returns the ports of the range whose probe connected, and [main]
    can then run to its end: it stops having printed the results (and,
    if the report file cannot be opened, the error). *)
Theorem main_completes_valid_scan ip :
  hosts env (target args) = Some ip →
  valid_scan (start args) (end_ args) (threads args) →
  stdout_ok env →
  inevitably env ip
    (λ st, main_pc st = Returned (expected ip) ∧
           rtc (main_step env args) (main env args)
               (finish env args ip (expected ip) (banner args ip)))
    scan_of_args ∧
  (ctl (finish env args ip (expected ip) (banner args ip)) = Halted Completed ∨
   ctl (finish env args ip (expected ip) (banner args ip))
     = Halted (Caught (OSError os_generic))).
Proof.
  intros Hh Hv Hout. split.
  - pose proof (scan_returns env ip _ _ _ Hv Hout) as Hev.
    apply (inevitably_invariant env ip
             (λ st, rtc (step env ip) scan_of_args st)) in Hev;
      [|intros st st' ? ?; by eapply rtc_r|apply rtc_refl].
    eapply inevitably_mono; [|exact Hev].
    intros st [([r Hr] & HI & _) Hrtc].
    rewrite (returned_expected _ _ _ _ _ _ _ HI Hr) in Hr.
    split; [done|].
    eapply rtc_r; [|by apply main_returned].
    unfold main, gethostbyname. rewrite Hh. by apply main_step_scan.
  - unfold finish. destruct (output args) as [path|]; [|by left].
    case_decide; [by left|]. destruct (writable env path); [by left|by right].
Qed.

End MainExtras.

(** X13. No run of the threads goes on for ever: whatever the inputs
    and the schedule, a run takes at most three steps of the main
    thread, three per worker (start, leaving the loop, being joined) and
    four per port (withdrawal, probe, count, [task_done]); a scan that
    does not return is blocked, not busy. *)
Theorem runs_are_finite env ip start_port end_port num_threads n st :
  nsteps (step env ip) n (scan_ports start_port end_port num_threads) st →
  (n ≤ 3 + 3 * actual_threads start_port end_port num_threads
       + 4 * length (port_range start_port end_port))%nat.
Proof.
  intros Hn.
  assert (n + measure st
          ≤ measure (scan_ports start_port end_port num_threads))%nat as Hm.
  { induction Hn as [st|n st1 st2 st3 Hstep _ IH]; [lia|].
    apply step_measure in Hstep. lia. }
  unfold measure at 2 in Hm. simpl in Hm. unfold actual_threads. lia.
Qed.

(** * The further properties at work *)

(** The scan of [web], to its end. *)
Example run_web env :
  net env = net loopback → services env = services loopback →
  stdout_write env = stdout_write loopback →
  ∃ st, rtc (step env "127.0.0.1") (scan_ports 80 80 1) st ∧
        main_pc st = Returned [(80, "http")].
Proof.
  intros Hnet Hsrv Hout.
  assert (probe env "127.0.0.1" 80 [] =
          (Ret tt, [(80, "http")], [SockOpen; SockConnect; SockClose])) as Hp.
  { probe_unfold. unfold get_service_name, getservbyport.
    by rewrite Hnet, Hsrv. }
  eexists. split.
  - unfold scan_ports. simpl. spawn. spawned. get 0%nat.
    eapply rtc_l; [by eapply (step_scan _ _ 0%nat)|]. simpl.
    eapply rtc_l;
      [eapply (step_count _ _ 0%nat);
         [reflexivity|unfold print_progress; by rewrite Hout]|]. simpl.
    task_done 0%nat. empty 0%nat.
    queue_join. thread_join. returns. apply rtc_refl.
  - reflexivity.
Qed.

(** [web], when [scan_ports] has returned. *)
Lemma web_returned env :
  hosts env = hosts loopback → net env = net loopback →
  services env = services loopback →
  stdout_write env = stdout_write loopback →
  ∃ st, main_pc st = Returned [(80, "http")] ∧
        rtc (main_step env web) (main env web)
            (World (Running "127.0.0.1" st) (banner web "127.0.0.1") None).
Proof.
  intros Hhosts Hnet Hsrv Hout.
  destruct (run_web env Hnet Hsrv Hout) as (st & Hrtc & Hr).
  exists st. split; [done|].
  unfold main, gethostbyname. rewrite Hhosts. simpl.
  by apply main_step_scan.
Qed.

Lemma web_finishes env :
  hosts env = hosts loopback → net env = net loopback →
  services env = services loopback →
  stdout_write env = stdout_write loopback →
  rtc (main_step env web) (main env web)
      (finish env web "127.0.0.1" [(80, "http")] (banner web "127.0.0.1")).
Proof.
  intros Hhosts Hnet Hsrv Hout.
  destruct (web_returned env Hhosts Hnet Hsrv Hout) as (st & Hr & Hrtc).
  eapply rtc_r; [exact Hrtc|by apply main_returned].
Qed.


Lemma bad_port_never_returns_witness :
  ∃ st, rtc (step loopback "127.0.0.1") (scan_ports 65536 65536 1) st ∧
        thread_list st = [Died 65536 OverflowError] ∧
        ((∃ n, main_pc st = Spawning n) ∨ main_pc st = QueueJoin).
Proof.
  destruct run_overflow as (st & Hrtc & Hths & _).
  exists st. split; [exact Hrtc|]. split; [exact Hths|].
  apply (bad_port_never_returns loopback "127.0.0.1" 65536 65536 1 65536 st).
  - lia.
  - unfold port_in_range. lia.
  - intros k. discriminate.
  - exact Hrtc.
Defined.

Lemma no_threads_never_returns_witness :
  0 ≤ 0 ∧ 80 ≤ 81 ∧
  ∃ st, rtc (step loopback "127.0.0.1") (scan_ports 80 81 0) st ∧
        main_pc st = QueueJoin ∧
        thread_list st = [] ∧ queue st = [80; 81].
Proof.
  assert (0 ≤ 0) as Ht by lia. assert (80 ≤ 81) as Hse by lia.
  split; [exact Ht|]. split; [exact Hse|].
  destruct run_no_thread as (st & Hrtc & Hpc).
  exists st. split; [exact Hrtc|]. split; [exact Hpc|].
  destruct (proj1 (no_threads_never_returns loopback "127.0.0.1" 80 81 0 Ht Hse)
              st Hrtc) as (Hths & Hq & _).
  split; [exact Hths|exact Hq].
Defined.

Lemma progress_accounting_witness :
  ∃ st, rtc (step loopback "127.0.0.1") (scan_ports 80 81 2) st ∧
        progress_counter st = 2%nat ∧ unfinished_tasks st = 0%nat.
Proof.
  destruct run_two_workers as (st & Hrtc & _ & Hr).
  exists st. split; [exact Hrtc|].
  exact (proj2 (proj2 (proj2 (progress_accounting
                                loopback "127.0.0.1" 80 81 2 st Hrtc))) _ Hr).
Defined.

Lemma returned_is_final_witness :
  ∃ st, rtc (step loopback "127.0.0.1") (scan_ports 80 81 2) st ∧
        Forall (λ w, w = Exited) (thread_list st) ∧ queue st = [] ∧
        ∀ st', ¬ step loopback "127.0.0.1" st st'.
Proof.
  destruct run_two_workers as (st & Hrtc & _ & Hr).
  exists st. split; [exact Hrtc|].
  exact (returned_is_final loopback "127.0.0.1" 80 81 2 st _ Hrtc Hr).
Defined.

Lemma open_ports_only_grow_witness :
  ∃ st, rtc (step loopback "127.0.0.1") (scan_ports 80 81 2) st ∧
        open_ports st = [(81, "unknown"); (80, "http")] ∧
        NoDup (open_ports st).*1.
Proof.
  destruct run_two_workers as (st & Hrtc & Ho & _).
  exists st. split; [exact Hrtc|]. split; [exact Ho|].
  exact (proj1 (proj2 (open_ports_only_grow loopback "127.0.0.1" 80 81 2 st Hrtc))).
Defined.

Lemma main_completed_output_witness :
  ∃ ip,
    hosts loopback (target web) = Some ip ∧
    stdout (finish loopback web "127.0.0.1" [(80, "http")]
                   (banner web "127.0.0.1"))
      = banner web ip ++
        print_results loopback web (expected_result loopback ip 80 80) ∧
    file (finish loopback web "127.0.0.1" [(80, "http")] (banner web "127.0.0.1"))
      = Some ("scan.txt",
              report loopback web ip (expected_result loopback ip 80 80)).
Proof.
  destruct (main_completed_output loopback web _
              (web_finishes loopback eq_refl eq_refl eq_refl eq_refl) eq_refl)
    as (ip & Hh & Hout & Hf & _).
  exists ip. split; [exact Hh|]. split; [exact Hout|exact Hf].
Defined.

Lemma main_report_unwritable_witness :
  output web = Some "scan.txt" ∧ writable readonly "scan.txt" = false ∧
  ∃ st w',
    main_pc st = Returned [(80, "http")] ∧
    main_step readonly web
      (World (Running "127.0.0.1" st) (banner web "127.0.0.1") None) w' ∧
    stdout w' =
      banner web "127.0.0.1" ++
      print_results readonly web (expected_result readonly "127.0.0.1" 80 80) ++
      ["An error occurred: Permission denied"] ∧
    file w' = None.
Proof.
  assert (output web = Some "scan.txt") as Ho by reflexivity.
  assert (writable readonly "scan.txt" = false) as Hw by reflexivity.
  assert ("scan.txt" ≠ "") as Hne by discriminate.
  split; [exact Ho|]. split; [exact Hw|].
  destruct (web_returned readonly eq_refl eq_refl eq_refl eq_refl)
    as (st & Hr & Hrtc).
  destruct (main_report_unwritable readonly web _ _ _ _ _
              Hrtc eq_refl Hr Ho Hne Hw) as (w' & Hstep & _ & Hout & Hf).
  exists st, w'. split; [exact Hr|]. split; [exact Hstep|].
  split; [exact Hout|exact Hf].
Defined.

Lemma main_completes_valid_scan_witness :
  hosts loopback (target web) = Some "127.0.0.1" ∧
  valid_scan (start web) (end_ web) (threads web) ∧
  stdout_ok loopback ∧
  inevitably loopback "127.0.0.1"
    (λ st, main_pc st = Returned (expected_result loopback "127.0.0.1" 80 80))
    (scan_ports 80 80 1).
Proof.
  assert (hosts loopback (target web) = Some "127.0.0.1") as Hh by reflexivity.
  assert (valid_scan (start web) (end_ web) (threads web)) as Hv
    by (unfold valid_scan; simpl; lia).
  assert (stdout_ok loopback) as Hout by (intros n; reflexivity).
  split; [exact Hh|]. split; [exact Hv|]. split; [exact Hout|].
  eapply inevitably_mono;
    [|exact (proj1 (main_completes_valid_scan loopback web _ Hh Hv Hout))].
  intros st [Hr _]. exact Hr.
Defined.

Lemma runs_are_finite_witness :
  nsteps (step loopback "127.0.0.1") 1 (scan_ports 80 81 0)
         (State [80; 81] 2 [] 0 [] QueueJoin [EvPut 80; EvPut 81]) ∧
  (1 ≤ 3 + 3 * actual_threads 80 81 0 + 4 * length (port_range 80 81))%nat.
Proof.
  assert (nsteps (step loopback "127.0.0.1") 1 (scan_ports 80 81 0)
            (State [80; 81] 2 [] 0 [] QueueJoin [EvPut 80; EvPut 81])) as Hn
    by (apply nsteps_once, step_spawned).
  split; [exact Hn|].
  exact (runs_are_finite loopback "127.0.0.1" 80 81 0 1 _ Hn).
Defined.

Lemma print_progress_arguments_witness :
  rtc (step loopback "127.0.0.1") (scan_ports 80 80 1) web_found ∧
  thread_list web_found !! 0%nat = Some (Scanned 80) ∧
  1 ≤ Z.of_nat (S (progress_counter web_found)) ≤ 80 - 80 + 1.
Proof.
  assert (rtc (step loopback "127.0.0.1") (scan_ports 80 80 1) web_found) as Hrtc.
  { unfold scan_ports, web_found. simpl. spawn. spawned. get 0%nat. scan 0%nat.
    apply rtc_refl. }
  assert (thread_list web_found !! 0%nat = Some (Scanned 80)) as Hi
    by reflexivity.
  split; [exact Hrtc|]. split; [exact Hi|].
  exact (proj2 (print_progress_arguments loopback "127.0.0.1" 80 80 1
                  web_found 0 80 Hrtc Hi)).
Defined.
